(** * Panchayat election registry: [createElection] and its four methods

    A shallow embedding of the closure returned by [createElection]
    (registerVoter, castVote, getResults, getWinner) together with the
    properties of the election registry proved about it.

    The closure's private state becomes an explicit record that every
    method receives and returns.  The [Map] of registered voters and the
    plain object of recorded votes are finite maps keyed by strings; the
    candidate array is a list.  Identifiers are strings (on strings the
    keys of a [Map] and the property keys of an object coincide), ages are
    integers and vote counts are natural numbers.  The callbacks of
    [castVote] and the comparator of [getResults] are pure functions: they
    do not call back into the registry. *)

From Stdlib Require Import ZArith.
From stdpp Require Import gmap strings list fin_maps sorting.

Open Scope string_scope.

(** ** Data model *)

(** A candidate [{ id, name, party }]. *)
Record Candidate := mkCandidate {
  cand_id : string;
  cand_name : string;
  cand_party : string
}.

(** A voter [{ id, name, age }].  The [id] property may be absent from the
    object handed to [registerVoter] ([None] stands for [undefined]). *)
Record Voter := mkVoter {
  voter_id : option string;
  voter_name : string;
  voter_age : Z
}.

(** The object stored per voter in [candidatedVoted]:
    [{ voted: true, candidateId, voterId }]. *)
Record Ballot := mkBallot {
  voted : bool;
  ballot_candidateId : string;
  ballot_voterId : string
}.

(** The argument of [onSuccess]: [{ voterId, candidateId }]. *)
Record Payload := mkPayload {
  payload_voterId : string;
  payload_candidateId : string
}.

(** One entry of [getResults]: [{ ...candidate, votes }]. *)
Record CandidateResult := mkResult {
  res_id : string;
  res_name : string;
  res_party : string;
  votes : nat
}.

(** The variables captured by the closure: the [candidates] argument,
    [registeredVoterList] (a [Map]) and [candidatedVoted] (a plain object). *)
Record Election := mkElection {
  candidates : list Candidate;
  registeredVoterList : gmap string Voter;
  candidatedVoted : gmap string Ballot
}.

#[global] Instance Candidate_eq_dec : EqDecision Candidate.
Proof. solve_decision. Defined.
#[global] Instance Voter_eq_dec : EqDecision Voter.
Proof. solve_decision. Defined.
#[global] Instance Ballot_eq_dec : EqDecision Ballot.
Proof. solve_decision. Defined.
#[global] Instance Payload_eq_dec : EqDecision Payload.
Proof. solve_decision. Defined.
#[global] Instance CandidateResult_eq_dec : EqDecision CandidateResult.
Proof. solve_decision. Defined.

(** ** JavaScript primitives used by the methods *)

(** Truthiness of a value that is a string or [undefined]: both
    [undefined] and the empty string are falsy. *)
Definition truthy (v : option string) : bool :=
  match v with
  | None => false
  | Some s => negb (String.eqb s "")
  end.

(** [Map.prototype.has]. *)
Definition Map_has {V} (m : gmap string V) (k : string) : bool :=
  bool_decide (is_Some (m !! k)).

(** [Map.prototype.set]. *)
Definition Map_set {V} (m : gmap string V) (k : string) (v : V) : gmap string V :=
  <[k := v]> m.

(** [Object.hasOwn(o, k)]: own properties only. *)
Definition Object_hasOwn {V} (o : gmap string V) (k : string) : bool :=
  bool_decide (is_Some (o !! k)).

(** [o[k] = v] on an object created by the literal [{}].  Such an object
    inherits from [Object.prototype] the accessor property [__proto__];
    an assignment to that key runs the inherited setter, which replaces
    the prototype of [o] and creates no own property.  No method of the
    registry observes the prototype ([Object.hasOwn] and [Object.values]
    read own properties only), so the model keeps the own properties,
    which such an assignment leaves as they are.  Every other key is
    created or overwritten as an own property. *)
Definition Object_assign {V} (o : gmap string V) (k : string) (v : V) : gmap string V :=
  if bool_decide (k = "__proto__") then o else <[k := v]> o.

(** [Object.values(o)]: the values of the own properties.  Only the number
    of values satisfying a predicate is ever used, so their order is
    immaterial. *)
Definition Object_values {V} (o : gmap string V) : list V :=
  (map_to_list o).*2.

(** [Array.prototype.sort(cmp)], which is a stable sort: an element moves
    past another only when the comparator orders them strictly.  Written
    as a stable insertion sort; [cmp x y > 0] means [y] sorts before [x]. *)
Fixpoint sort_insert {A} (cmp : A → A → Z) (x : A) (l : list A) : list A :=
  match l with
  | [] => [x]
  | y :: l' =>
      if (0 <? cmp x y)%Z then y :: sort_insert cmp x l' else x :: y :: l'
  end.

Definition Array_sort {A} (cmp : A → A → Z) (l : list A) : list A :=
  foldr (sort_insert cmp) [] l.

(** ** The registry *)

Definition createElection (cands : list Candidate) : Election :=
  {| candidates := cands; registeredVoterList := ∅; candidatedVoted := ∅ |}.

(** [registerVoter(voter)]; [None] is a missing ([undefined]) argument. *)
Definition registerVoter (voter : option Voter) (e : Election)
  : bool * Election :=
  match voter with
  | None => (false, e)
  | Some v =>
      match voter_id v with
      | None => (false, e)
      | Some i =>
          if negb (truthy (Some i))
             || Map_has (registeredVoterList e) i
             || (voter_age v <? 18)%Z
          then (false, e)
          else (true,
                {| candidates := candidates e;
                   registeredVoterList := Map_set (registeredVoterList e) i v;
                   candidatedVoted := candidatedVoted e |})
      end
  end.

(** [castVote(voterId, candidateId, onSuccess, onError)].  The callbacks
    are functions into an arbitrary result type [R]; the value returned is
    the value of the callback that was called. *)
Definition castVote {R} (voterId candidateId : string)
    (onSuccess : Payload → R) (onError : string → R) (e : Election)
  : R * Election :=
  match find (λ candid, bool_decide (cand_id candid = candidateId))
             (candidates e) with
  | None => (onError "Wrong candidate!", e)
  | Some _ =>
      if negb (Map_has (registeredVoterList e) voterId)
      then (onError "Unauthorized voter!", e)
      else if Object_hasOwn (candidatedVoted e) voterId
              && from_option voted false (candidatedVoted e !! voterId)
      then (onError "Already voted!", e)
      else (onSuccess {| payload_voterId := voterId;
                         payload_candidateId := candidateId |},
            {| candidates := candidates e;
               registeredVoterList := registeredVoterList e;
               candidatedVoted :=
                 Object_assign (candidatedVoted e) voterId
                   {| voted := true;
                      ballot_candidateId := candidateId;
                      ballot_voterId := voterId |} |})
  end.

(** The number computed for one candidate inside [getResults]:
    [Object.values(candidatedVoted).filter(...).length]. *)
Definition countVotes (e : Election) (candidate : Candidate) : nat :=
  length (filter (λ voter, ballot_candidateId voter = cand_id candidate)
                 (Object_values (candidatedVoted e))).

(** [{ ...candidate, votes }]. *)
Definition withVotes (e : Election) (candidate : Candidate) : CandidateResult :=
  {| res_id := cand_id candidate;
     res_name := cand_name candidate;
     res_party := cand_party candidate;
     votes := countVotes e candidate |}.

(** The comparator handed to [sort] by [getResults]. *)
Definition resultComparator (sortFn : option (CandidateResult → CandidateResult → Z))
    (candid1 candid2 : CandidateResult) : Z :=
  match sortFn with
  | Some f => f candid1 candid2
  | None => (Z.of_nat (votes candid2) - Z.of_nat (votes candid1))%Z
  end.

(** [getResults(sortFn)]; [None] is the call without a comparator. *)
Definition getResults (sortFn : option (CandidateResult → CandidateResult → Z))
    (e : Election) : list CandidateResult * Election :=
  let candidateWithVotesCount := map (withVotes e) (candidates e) in
  (Array_sort (resultComparator sortFn) candidateWithVotesCount, e).

(** How a call completes: it returns a value or throws. *)
Inductive Completion (A : Type) :=
  | Returned (a : A)
  | ThrewTypeError.
Arguments Returned {A} a.
Arguments ThrewTypeError {A}.

(** [getWinner()]: reading [votes] of [results[0]] throws a [TypeError]
    when [results] is empty; [None] in the returned value is [null]. *)
Definition getWinner (e : Election)
  : Completion (option CandidateResult) * Election :=
  let '(results, e') := getResults None e in
  match results !! 0%nat with
  | None => (ThrewTypeError, e')
  | Some candidateWithHighestVotes =>
      (Returned (if (0 <? votes candidateWithHighestVotes)%nat
                 then Some candidateWithHighestVotes else None), e')
  end.

(** ** Histories of calls *)

(** Which callback [castVote] called, and with which argument.  Running
    [castVote] with the two constructors as callbacks records the call. *)
Inductive Call :=
  | CalledSuccess (p : Payload)
  | CalledError (reason : string).

#[global] Instance Call_eq_dec : EqDecision Call.
Proof. solve_decision. Defined.

(** One call of a method of the registry. *)
Inductive Op :=
  | OpRegisterVoter (voter : option Voter)
  | OpCastVote (voterId candidateId : string)
  | OpGetResults (sortFn : option (CandidateResult → CandidateResult → Z))
  | OpGetWinner.

(** What the caller of a method sees. *)
Inductive Outcome :=
  | OutRegisterVoter (b : bool)
  | OutCastVote (c : Call)
  | OutGetResults (l : list CandidateResult)
  | OutGetWinner (w : Completion (option CandidateResult)).

Definition run (op : Op) (e : Election) : Outcome * Election :=
  match op with
  | OpRegisterVoter voter => prod_map OutRegisterVoter id (registerVoter voter e)
  | OpCastVote voterId candidateId =>
      prod_map OutCastVote id
        (castVote voterId candidateId CalledSuccess CalledError e)
  | OpGetResults sortFn => prod_map OutGetResults id (getResults sortFn e)
  | OpGetWinner => prod_map OutGetWinner id (getWinner e)
  end.

Definition step (op : Op) (e : Election) : Election := (run op e).2.

(** The state after a sequence of calls, the first call first. *)
Definition exec (ops : list Op) (e : Election) : Election :=
  foldl (λ e op, step op e) e ops.

(** The states of a registry created from [cands]. *)
Inductive reachable (cands : list Candidate) : Election → Prop :=
  | reachable_init : reachable cands (createElection cands)
  | reachable_step op e :
      reachable cands e → reachable cands (step op e).

(** ** Vocabulary of the properties *)

(** [candidateId] is the id of a candidate of the list. *)
Definition knownCandidate (cands : list Candidate) (candidateId : string) : Prop :=
  candidateId ∈ cand_id <$> cands.

(** The voter object carries no usable id: the property is absent or it is
    the empty string. *)
Definition hasNoId (v : Voter) : Prop :=
  voter_id v = None ∨ voter_id v = Some "".

(** The number of recorded ballots that name [candidateId]. *)
Definition ballotsFor (e : Election) (candidateId : string) : nat :=
  size (filter (λ kb : string * Ballot, ballot_candidateId kb.2 = candidateId)
               (candidatedVoted e)).

(** [registerVoter] has a reason to refuse [voter]: the argument is
    missing, it has no id, its id is already registered, or its age is
    under 18. *)
Definition refused (voter : option Voter) (e : Election) : Prop :=
  match voter with
  | None => True
  | Some v =>
      hasNoId v
      ∨ (∃ i, voter_id v = Some i ∧ is_Some (registeredVoterList e !! i))
      ∨ (voter_age v < 18)%Z
  end.

(** Descending order of vote counts. *)
Definition votesDescending (a b : CandidateResult) : Prop :=
  (votes b ≤ votes a)%nat.

(** The entries of [l] that have [k] votes, in the order of [l]. *)
Definition withVoteCount (k : nat) (l : list CandidateResult) : list CandidateResult :=
  filter (λ r, votes r = k) l.

(** What holds of every recorded ballot in a registry created from
    [cands]: it is marked as voted, it is stored under the id of its voter,
    that voter is registered, and it names a candidate of [cands]. *)
Definition ballotsWellFormed (cands : list Candidate) (e : Election) : Prop :=
  ∀ voterId b,
    candidatedVoted e !! voterId = Some b →
    voted b = true
    ∧ ballot_voterId b = voterId
    ∧ is_Some (registeredVoterList e !! voterId)
    ∧ knownCandidate cands (ballot_candidateId b).

(** ** Sample registries *)

Definition sampleCandidates : list Candidate :=
  [mkCandidate "C1" "Ram" "Janata"; mkCandidate "C2" "Sita" "Lok"].

Definition mohan : Voter := mkVoter (Some "V1") "Mohan" 25.

(** Two candidates, voter V1 registered. *)
Definition sampleRegistered : Election :=
  exec [OpRegisterVoter (Some mohan)] (createElection sampleCandidates).

(** Voter V1 has voted for C1. *)
Definition sampleVoted : Election :=
  exec [OpCastVote "V1" "C1"] sampleRegistered.

(** A voter whose id is the string [__proto__] is registered. *)
Definition protoRegistered : Election :=
  exec [OpRegisterVoter (Some (mkVoter (Some "__proto__") "Gita" 30))]
       (createElection sampleCandidates).

(** ** Vocabulary of the further properties of the registry *)

(** The votes of a list of results, added up. *)
Definition totalVotes (l : list CandidateResult) : nat :=
  sum_list_with votes l.

(** [a] may stand before [b] under the comparator [cmp]. *)
Definition mayPrecede {A} (cmp : A → A → Z) (a b : A) : Prop :=
  (cmp a b ≤ 0)%Z.

(** A consistent comparison function in the sense of the language
    standard: comparing equal ([0]) is reflexive, symmetric and transitive,
    and comparing smaller ([< 0]) and comparing greater ([> 0]) are
    transitive.  For such a comparator the result of a stable sort does
    not depend on the sorting procedure. *)
Definition consistentComparator {A} (cmp : A → A → Z) : Prop :=
  (∀ a, cmp a a = 0%Z)
  ∧ (∀ a b, cmp a b = 0%Z → cmp b a = 0%Z)
  ∧ (∀ a b c, cmp a b = 0%Z → cmp b c = 0%Z → cmp a c = 0%Z)
  ∧ (∀ a b c, (cmp a b < 0)%Z → (cmp b c < 0)%Z → (cmp a c < 0)%Z)
  ∧ (∀ a b c, (0 < cmp a b)%Z → (0 < cmp b c)%Z → (0 < cmp a c)%Z).

(** The entries of [l] that compare equal to [r], in the order of [l]. *)
Definition comparingEqual {A} (cmp : A → A → Z) (r : A) (l : list A) : list A :=
  filter (λ x, cmp x r = 0%Z) l.

(** A comparator for [getResults]: fewest votes first,
    [(a, b) => a.votes - b.votes]. *)
Definition fewestVotesFirst (a b : CandidateResult) : Z :=
  (Z.of_nat (votes a) - Z.of_nat (votes b))%Z.

(** ** tallyPure *)

(** [tallyPure(currentTally, candidateId)].  A tally object is a finite
    map from candidate ids to numbers.  The result is built by an object
    literal with a spread and a computed key, which defines own properties
    for every key (the key [__proto__] included), so it is a plain
    insertion into a copy. *)
Definition tallyPure (currentTally : gmap string Z) (candidateId : string)
  : gmap string Z :=
  if negb (Object_hasOwn currentTally candidateId)
  then <[candidateId := 1%Z]> currentTally
  else
    let candidateValue := default 0%Z (currentTally !! candidateId) in
    <[candidateId := (candidateValue + 1)%Z]> currentTally.

(** How often [candidateId] occurs in a list of ids. *)
Definition occurrences (candidateId : string) (ids : list string) : nat :=
  length (filter (λ i, i = candidateId) ids).

(** The candidate ids of the recorded ballots. *)
Definition ballotIds (e : Election) : list string :=
  ballot_candidateId <$> Object_values (candidatedVoted e).

(** ** countVotesInRegions *)

(** A region [{ name, votes, subRegions }]; [None] for [subRegions] is a
    region object without that property. *)
#[warnings="-register-all"]
Inductive Region := mkRegion {
  region_name : string;
  region_votes : Z;
  region_subRegions : option (list Region)
}.

(** The callback handed to [reduce] inside [calcVotes]: a sub-region with a
    non-empty [subRegions] array adds its votes and those of the array
    (computed by [calcVotes], the same [reduce] started from [0]); any
    other sub-region adds its votes only. *)
Fixpoint calcVotes_reducer (acc : Z) (subRegion : Region) {struct subRegion} : Z :=
  match subRegion with
  | mkRegion _ votes (Some (r :: l)) =>
      (acc + votes + foldl calcVotes_reducer 0 (r :: l))%Z
  | mkRegion _ votes _ => (acc + votes)%Z
  end.

(** The inner function [calcVotes(providedRegions)]. *)
Definition calcVotes (providedRegions : list Region) : Z :=
  foldl calcVotes_reducer 0%Z providedRegions.

(** [countVotesInRegions(regionTree)]; [None] is [null] or [undefined].
    Calling [reduce] on the missing [subRegions] of the region passed in
    throws a [TypeError]. *)
Definition countVotesInRegions (regionTree : option Region) : Completion Z :=
  match regionTree with
  | None => Returned 0%Z
  | Some (mkRegion _ votes subRegions) =>
      match subRegions with
      | None => ThrewTypeError
      | Some l => Returned (votes + calcVotes l)%Z
      end
  end.



(** A sample tree: a district with two blocks, one of which has a village
    that carries no [subRegions] property. *)
Definition sampleRegion : Region :=
  mkRegion "District" 10
    (Some [mkRegion "Block A" 5 (Some [mkRegion "Village" 2 None]);
           mkRegion "Block B" 7 (Some [])]).

(** ** createVoteValidator *)

(** The [rules] object [{ minAge, requiredFields }]. *)
Record Rules := mkRules {
  minAge : Z;
  requiredFields : list string
}.

(** The object returned by a validator: [{ valid }] or [{ valid, reason }]. *)
Record Validation := mkValidation {
  valid : bool;
  reason : option string
}.

(** [Object.hasOwn(voter, field)] for a voter [{ id, name, age }] whose
    [id] may be absent; such an object has no other property. *)
Definition voterHasOwn (voter : Voter) (field : string) : bool :=
  if String.eqb field "id" then bool_decide (is_Some (voter_id voter))
  else String.eqb field "name" || String.eqb field "age".

(** [createVoteValidator(rules)], applied to a voter. *)
Definition createVoteValidator (rules : Rules) (voter : Voter) : Validation :=
  if (voter_age voter <? minAge rules)%Z
  then {| valid := false; reason := Some "Votes is less in age!" |}
  else
    let isValid := forallb (voterHasOwn voter) (requiredFields rules) in
    if isValid
    then {| valid := true; reason := None |}
    else {| valid := false; reason := Some "Voter should have required fields" |}.

(** The rules of the docstring: [{ minAge: 18, requiredFields: ["id",
    "name", "age"] }]. *)
Definition documentedRules : Rules :=
  {| minAge := 18; requiredFields := ["id"; "name"; "age"] |}.

(** ** The tiffin plans *)

(** The argument of [createTiffinPlan]: an object whose properties [name],
    [mealType] and [days] may each be absent. *)
Record TiffinRequest := mkRequest {
  req_name : option string;
  req_mealType : option string;
  req_days : option Z
}.

(** A plan [{ name, mealType, days, dailyRate, totalCost }]; the plans
    returned by [applyAddons] carry [addonNames] as well. *)
Record Plan := mkPlan {
  plan_name : string;
  plan_mealType : string;
  plan_days : Z;
  plan_dailyRate : Z;
  plan_totalCost : Z;
  plan_addonNames : option (list string)
}.


(** The table [mealPriceByType] of [createTiffinPlan]. *)
Definition mealPriceByType : gmap string Z :=
  {[ "veg" := 80%Z; "nonveg" := 120%Z; "jain" := 90%Z ]}.

Section createTiffinPlan.
(** [String.prototype.trim]. *)
Variable trim : string → string.

(** [createTiffinPlan({ name, mealType = "veg", days = 30 } = {})]; [None]
    as argument is the call without argument, [None] as result is
    [null]. *)
Definition createTiffinPlan (arg : option TiffinRequest) : option Plan :=
  let mealType := default "veg" (arg ≫= req_mealType) in
  let days := default 30%Z (arg ≫= req_days) in
  match arg ≫= req_name with
  | None => None
  | Some name =>
      if negb (truthy (Some name)) || negb (truthy (Some (trim name)))
      then None
      else if negb (Object_hasOwn mealPriceByType mealType)
      then None
      else
        let mealPricePerDay := default 0%Z (mealPriceByType !! mealType) in
        let totalCost := (mealPricePerDay * days)%Z in
        Some {| plan_name := name;
                plan_mealType := mealType;
                plan_days := days;
                plan_dailyRate := mealPricePerDay;
                plan_totalCost := totalCost;
                plan_addonNames := None |}
  end.
End createTiffinPlan.


(** The names of the properties that every plain object inherits from
    [Object.prototype]. *)
Definition objectPrototypeKeys : list string :=
  ["constructor"; "__defineGetter__"; "__defineSetter__"; "hasOwnProperty";
   "__lookupGetter__"; "__lookupSetter__"; "isPrototypeOf";
   "propertyIsEnumerable"; "toString"; "valueOf"; "__proto__";
   "toLocaleString"].

(** A value stored in [mealBreakdown]: a count, or the string that results
    from adding [1] to something that is not a number. *)
Inductive BreakdownValue :=
  | Count (n : Z)
  | NotACount.

#[global] Instance BreakdownValue_eq_dec : EqDecision BreakdownValue.
Proof. solve_decision. Defined.

(** The accumulator of [combinePlans].  [totalCostIsNaN] tells whether the
    accumulator has the property [totalCost]: [acc.totalCost += 1] creates
    it from [undefined], so when present its value is [NaN]. *)
Record Summary := mkSummary {
  totalCustomers : Z;
  totalRevenue : Z;
  mealBreakdown : gmap string BreakdownValue;
  totalCostIsNaN : bool
}.

(** [mealBreakdown[k] ? mealBreakdown[k] + 1 : 1].  The read finds own
    properties and, failing those, the properties inherited from
    [Object.prototype], which are objects or functions: truthy, and turned
    into a string by [+ 1]. *)
Definition nextBreakdownValue (mealBreakdown : gmap string BreakdownValue)
    (k : string) : BreakdownValue :=
  match mealBreakdown !! k with
  | Some (Count n) => if bool_decide (n = 0%Z) then Count 1 else Count (n + 1)
  | Some NotACount => NotACount
  | None => if bool_decide (k ∈ objectPrototypeKeys) then NotACount else Count 1
  end.

(** The callback handed to [reduce] by [combinePlans]; a [null] plan is
    skipped. *)
Definition combinePlans_reducer (acc : Summary) (plan : option Plan) : Summary :=
  match plan with
  | None => acc
  | Some p =>
      {| totalCustomers := (totalCustomers acc + 1)%Z;
         totalRevenue := (totalRevenue acc + plan_totalCost p)%Z;
         mealBreakdown :=
           Object_assign (mealBreakdown acc) (plan_mealType p)
             (nextBreakdownValue (mealBreakdown acc) (plan_mealType p));
         totalCostIsNaN := true |}
  end.

(** [combinePlans(...plans)]. *)
Definition combinePlans (plans : list (option Plan)) : option Summary :=
  match plans with
  | [] => None
  | _ =>
      Some (foldl combinePlans_reducer
              {| totalCustomers := 0; totalRevenue := 0;
                 mealBreakdown := ∅; totalCostIsNaN := false |}
              plans)
  end.



(** [trim] on strings of ASCII characters: the white space of that range
    (tab, line feed, vertical tab, form feed, carriage return, space) is
    stripped from both ends.  It instantiates the parameter of
    [createTiffinPlan] in the examples. *)
Fixpoint trimStart (s : string) : string :=
  match s with
  | String c s' => if Ascii.is_space c then trimStart s' else s
  | EmptyString => EmptyString
  end.

Definition trimAscii (s : string) : string :=
  String.rev (trimStart (String.rev (trimStart s))).

(** Sample plans. *)
Definition rahulPlan : Plan := mkPlan "Rahul" "veg" 30 80 2400 None.
Definition priyaPlan : Plan := mkPlan "Priya" "nonveg" 10 120 1200 None.

(** ** The Holi palettes *)

(** A color [{ name, r, g, b }] with integer channels. *)
Record Color := mkColor {
  color_name : string;
  color_r : Z;
  color_g : Z;
  color_b : Z
}.

#[global] Instance Color_eq_dec : EqDecision Color.
Proof. solve_decision. Defined.

(** [Math.ceil(n / 2)] for an integer [n]. *)
Definition ceilHalf (n : Z) : Z := ((n + 1) / 2)%Z.

(** [mixColors(color1, color2)]; [None] is [null]. *)
Definition mixColors (color1 color2 : option Color) : option Color :=
  match color1, color2 with
  | Some c1, Some c2 =>
      Some {| color_name := color_name c1 +:+ "-" +:+ color_name c2;
              color_r := ceilHalf (color_r c1 + color_r c2);
              color_g := ceilHalf (color_g c1 + color_g c2);
              color_b := ceilHalf (color_b c1 + color_b c2) |}
  | _, _ => None
  end.

(** [removeFromPalette(palette, colorName)]; a palette that is not an
    array is [None]. *)
Definition removeFromPalette (palette : option (list Color)) (colorName : string)
  : list Color :=
  match palette with
  | None => []
  | Some palette => filter (λ c, color_name c ≠ colorName) palette
  end.

(** The callback of [palette2.forEach] in [mergePalettes]: a color whose
    name some color of [newPalette] has already is skipped, any other is
    pushed. *)
Definition mergePalettes_step (newPalette : list Color) (palette : Color)
  : list Color :=
  let isAlreadyAdded :=
    existsb (λ pal, String.eqb (color_name pal) (color_name palette)) newPalette in
  if negb isAlreadyAdded then (newPalette ++ [palette])%list else newPalette.

(** [mergePalettes(palette1, palette2)]. *)
Definition mergePalettes (palette1 palette2 : option (list Color)) : list Color :=
  match palette1, palette2 with
  | None, None => []
  | Some palette1, None => palette1
  | None, Some palette2 => palette2
  | Some palette1, Some palette2 => foldl mergePalettes_step palette1 palette2
  end.

(** A color whose three channels lie between 0 and 255. *)
Definition validChannels (c : Color) : Prop :=
  (0 ≤ color_r c ≤ 255)%Z ∧ (0 ≤ color_g c ≤ 255)%Z ∧ (0 ≤ color_b c ≤ 255)%Z.

(** The half-sum of two channels rounded up: the mixed channel is the least
    integer that is at least the average. *)
Definition mixedChannel (a b m : Z) : Prop :=
  (a + b ≤ 2 * m ≤ a + b + 1)%Z.

(** Sample colors. *)
Definition red : Color := mkColor "red" 255 0 0.
Definition blue : Color := mkColor "blue" 0 0 255.
Definition darkRed : Color := mkColor "red" 120 0 0.

(** ** applyOperations *)



(** ** Basic facts *)

Lemma find_candidate_known cands candidateId :
  knownCandidate cands candidateId →
  is_Some (find (λ candid, bool_decide (cand_id candid = candidateId)) cands).
Proof.
  unfold knownCandidate. induction cands as [|c cands IH]; simpl.
  - intros H. by apply elem_of_nil in H.
  - intros H. case_bool_decide; [by eexists|].
    apply elem_of_cons in H as [H|H]; [congruence|by apply IH].
Qed.

Lemma find_candidate_unknown cands candidateId :
  ¬ knownCandidate cands candidateId →
  find (λ candid, bool_decide (cand_id candid = candidateId)) cands = None.
Proof.
  unfold knownCandidate. induction cands as [|c cands IH]; simpl; [done|].
  intros H. case_bool_decide as Hc.
  - exfalso. apply H. rewrite Hc. apply elem_of_cons. by left.
  - apply IH. intros H'. apply H. apply elem_of_cons. by right.
Qed.

#[global] Instance knownCandidate_dec cands candidateId :
  Decision (knownCandidate cands candidateId).
Proof. unfold knownCandidate. apply _. Defined.

Lemma registerVoter_candidates voter e :
  candidates (registerVoter voter e).2 = candidates e.
Proof.
  unfold registerVoter. destruct voter as [v|]; [|done].
  destruct (voter_id v); [|done]. by case_match.
Qed.

Lemma registerVoter_ballots voter e :
  candidatedVoted (registerVoter voter e).2 = candidatedVoted e.
Proof.
  unfold registerVoter. destruct voter as [v|]; [|done].
  destruct (voter_id v); [|done]. by case_match.
Qed.

Lemma registerVoter_keeps_voter voter e i v :
  registeredVoterList e !! i = Some v →
  registeredVoterList (registerVoter voter e).2 !! i = Some v.
Proof.
  intros Hi. unfold registerVoter. destruct voter as [w|]; [|done].
  destruct (voter_id w) as [j|]; [|done].
  destruct (decide (j = i)) as [->|Hne].
  - unfold Map_has. rewrite Hi, bool_decide_eq_true_2 by eauto.
    by rewrite orb_true_r.
  - case_match; simpl; [done|]. unfold Map_set. by rewrite lookup_insert_ne.
Qed.

(** The state after [castVote] does not depend on the callbacks. *)
Lemma castVote_state {R S} voterId candidateId
    (onSuccess : Payload → R) (onError : string → R)
    (onSuccess' : Payload → S) (onError' : string → S) e :
  (castVote voterId candidateId onSuccess onError e).2
  = (castVote voterId candidateId onSuccess' onError' e).2.
Proof. unfold castVote. by repeat case_match. Qed.

Lemma castVote_candidates {R} voterId candidateId
    (onSuccess : Payload → R) (onError : string → R) e :
  candidates (castVote voterId candidateId onSuccess onError e).2 = candidates e.
Proof. unfold castVote. by repeat case_match. Qed.

Lemma castVote_voters {R} voterId candidateId
    (onSuccess : Payload → R) (onError : string → R) e :
  registeredVoterList (castVote voterId candidateId onSuccess onError e).2
  = registeredVoterList e.
Proof. unfold castVote. by repeat case_match. Qed.

Lemma getResults_state sortFn e : (getResults sortFn e).2 = e.
Proof. done. Qed.

Lemma getWinner_state e : (getWinner e).2 = e.
Proof. unfold getWinner. simpl. by case_match. Qed.

Lemma step_candidates op e : candidates (step op e) = candidates e.
Proof.
  destruct op; unfold step; simpl.
  - apply registerVoter_candidates.
  - apply castVote_candidates.
  - done.
  - by rewrite getWinner_state.
Qed.

Lemma exec_cons op ops e : exec (op :: ops) e = exec ops (step op e).
Proof. done. Qed.

Lemma exec_app ops1 ops2 e : exec (ops1 ++ ops2) e = exec ops2 (exec ops1 e).
Proof. unfold exec. apply foldl_app. Qed.

Lemma exec_candidates ops e : candidates (exec ops e) = candidates e.
Proof.
  revert e. induction ops as [|op ops IH]; intros e; [done|].
  by rewrite exec_cons, IH, step_candidates.
Qed.

Lemma reachable_candidates cands e : reachable cands e → candidates e = cands.
Proof. induction 1; [done|]. by rewrite step_candidates. Qed.

Lemma reachable_exec cands ops e :
  reachable cands e → reachable cands (exec ops e).
Proof.
  revert e. induction ops as [|op ops IH]; intros e He; [done|].
  rewrite exec_cons. apply IH. by constructor.
Qed.

(** ** The four ways [castVote] can go *)

Section castVote_cases.
Context {R : Type} (voterId candidateId : string).
Context (onSuccess : Payload → R) (onError : string → R) (e : Election).

Lemma castVote_wrong_candidate :
  ¬ knownCandidate (candidates e) candidateId →
  castVote voterId candidateId onSuccess onError e
  = (onError "Wrong candidate!", e).
Proof.
  intros H. unfold castVote. by rewrite find_candidate_unknown.
Qed.

Lemma castVote_unauthorized :
  knownCandidate (candidates e) candidateId →
  registeredVoterList e !! voterId = None →
  castVote voterId candidateId onSuccess onError e
  = (onError "Unauthorized voter!", e).
Proof.
  intros [c Hc]%find_candidate_known Hv. unfold castVote. rewrite Hc.
  unfold Map_has. rewrite Hv, bool_decide_eq_false_2; [done|].
  by intros [? ?].
Qed.

Lemma castVote_already b :
  knownCandidate (candidates e) candidateId →
  is_Some (registeredVoterList e !! voterId) →
  candidatedVoted e !! voterId = Some b →
  voted b = true →
  castVote voterId candidateId onSuccess onError e
  = (onError "Already voted!", e).
Proof.
  intros [c Hc]%find_candidate_known Hv Hb Hvoted. unfold castVote.
  rewrite Hc. unfold Map_has, Object_hasOwn.
  rewrite (bool_decide_eq_true_2 _ Hv), Hb.
  rewrite bool_decide_eq_true_2 by eauto. simpl. by rewrite Hvoted.
Qed.

Lemma castVote_fresh :
  knownCandidate (candidates e) candidateId →
  is_Some (registeredVoterList e !! voterId) →
  candidatedVoted e !! voterId = None →
  castVote voterId candidateId onSuccess onError e
  = (onSuccess (mkPayload voterId candidateId),
     mkElection (candidates e) (registeredVoterList e)
       (Object_assign (candidatedVoted e) voterId
          (mkBallot true candidateId voterId))).
Proof.
  intros [c Hc]%find_candidate_known Hv Hb. unfold castVote.
  rewrite Hc. unfold Map_has, Object_hasOwn.
  rewrite (bool_decide_eq_true_2 _ Hv), Hb.
  rewrite bool_decide_eq_false_2; [done|]. by intros [? ?].
Qed.
End castVote_cases.

(** ** Invariant of the recorded ballots *)

Lemma ballotsWellFormed_init cands : ballotsWellFormed cands (createElection cands).
Proof. intros v b H. simpl in H. by rewrite lookup_empty in H. Qed.

Lemma ballotsWellFormed_registerVoter cands voter e :
  ballotsWellFormed cands e →
  ballotsWellFormed cands (registerVoter voter e).2.
Proof.
  intros Hinv v b Hb. rewrite registerVoter_ballots in Hb.
  destruct (Hinv v b Hb) as (? & ? & [w Hw] & ?).
  repeat split; try done. exists w. by apply registerVoter_keeps_voter.
Qed.

Lemma ballotsWellFormed_castVote {R} cands voterId candidateId
    (onSuccess : Payload → R) (onError : string → R) e :
  candidates e = cands →
  ballotsWellFormed cands e →
  ballotsWellFormed cands (castVote voterId candidateId onSuccess onError e).2.
Proof.
  intros Hc Hinv.
  destruct (decide (knownCandidate (candidates e) candidateId)) as [Hk|Hk];
    [|by rewrite castVote_wrong_candidate].
  destruct (registeredVoterList e !! voterId) as [w|] eqn:Hw;
    [|by rewrite castVote_unauthorized].
  destruct (candidatedVoted e !! voterId) as [b|] eqn:Hb.
  - destruct (Hinv _ _ Hb) as (Hvoted & _). by erewrite castVote_already.
  - rewrite castVote_fresh by eauto. intros v b. simpl.
    unfold Object_assign. case_bool_decide; [apply Hinv|].
    destruct (decide (voterId = v)) as [->|Hne].
    + rewrite lookup_insert_eq. intros [= <-]. simpl.
      repeat split; [by eauto|by rewrite <- Hc].
    + rewrite lookup_insert_ne by done. apply Hinv.
Qed.

Lemma ballotsWellFormed_step cands op e :
  candidates e = cands →
  ballotsWellFormed cands e → ballotsWellFormed cands (step op e).
Proof.
  intros Hc Hinv. destruct op; unfold step; simpl.
  - by apply ballotsWellFormed_registerVoter.
  - by apply ballotsWellFormed_castVote.
  - done.
  - by rewrite getWinner_state.
Qed.

Lemma reachable_ballotsWellFormed cands e :
  reachable cands e → ballotsWellFormed cands e.
Proof.
  induction 1 as [|op e He IH]; [apply ballotsWellFormed_init|].
  apply ballotsWellFormed_step; [by apply reachable_candidates|done].
Qed.

(** A recorded ballot survives every call. *)
Lemma step_keeps_ballot cands op e voterId b :
  ballotsWellFormed cands e →
  candidatedVoted e !! voterId = Some b →
  candidatedVoted (step op e) !! voterId = Some b.
Proof.
  intros Hinv Hb. destruct op as [voter|v c|sortFn|]; unfold step; simpl.
  - by rewrite registerVoter_ballots.
  - destruct (decide (knownCandidate (candidates e) c)) as [Hk|Hk];
      [|by rewrite castVote_wrong_candidate].
    destruct (registeredVoterList e !! v) as [w|] eqn:Hw;
      [|by rewrite castVote_unauthorized].
    destruct (candidatedVoted e !! v) as [b'|] eqn:Hb'.
    + destruct (Hinv _ _ Hb') as (Hvoted & _). by erewrite castVote_already.
    + rewrite castVote_fresh by eauto. simpl. unfold Object_assign.
      case_bool_decide; [done|]. rewrite lookup_insert_ne; [done|congruence].
  - done.
  - by rewrite getWinner_state.
Qed.

Lemma exec_keeps_ballot cands ops e voterId b :
  reachable cands e →
  candidatedVoted e !! voterId = Some b →
  candidatedVoted (exec ops e) !! voterId = Some b.
Proof.
  revert e. induction ops as [|op ops IH]; intros e He Hb; [done|].
  rewrite exec_cons. apply IH; [by constructor|].
  eapply step_keeps_ballot; [by apply reachable_ballotsWellFormed|done].
Qed.

(** ** Counting ballots *)

Lemma count_values_size (P : Ballot → Prop) `{∀ b, Decision (P b)}
    (m : gmap string Ballot) :
  length (filter P (Object_values m))
  = size (filter (λ kb : string * Ballot, P kb.2) m).
Proof.
  unfold Object_values.
  induction m as [|i b m Hi IH] using map_ind.
  - by rewrite map_to_list_empty, map_filter_empty, map_size_empty.
  - rewrite (map_to_list_insert m i b Hi). rewrite fmap_cons. simpl.
    rewrite filter_cons, map_filter_insert. simpl.
    destruct (decide (P b)) as [HP|HP].
    + rewrite map_size_insert_None; [simpl; by rewrite IH|].
      apply map_lookup_filter_None. by left.
    + by rewrite delete_id.
Qed.

Lemma countVotes_ballotsFor e candidate :
  countVotes e candidate = ballotsFor e (cand_id candidate).
Proof.
  unfold countVotes, ballotsFor.
  exact (count_values_size (λ b, ballot_candidateId b = cand_id candidate)
           (candidatedVoted e)).
Qed.

Lemma countVotes_no_ballots e candidate :
  candidatedVoted e = ∅ → countVotes e candidate = 0.
Proof.
  intros He. rewrite countVotes_ballotsFor. unfold ballotsFor.
  by rewrite He, map_filter_empty, map_size_empty.
Qed.

(** ** The sort *)

Section sort.
Context {A : Type} (cmp : A → A → Z).

Lemma sort_insert_perm x l : sort_insert cmp x l ≡ₚ x :: l.
Proof.
  induction l as [|y l IH]; simpl; [done|].
  case_match; [|done]. rewrite IH. apply perm_swap.
Qed.

Lemma Array_sort_perm l : Array_sort cmp l ≡ₚ l.
Proof.
  induction l as [|x l IH]; simpl; [done|].
  by rewrite sort_insert_perm, IH.
Qed.

Lemma Array_sort_length l : length (Array_sort cmp l) = length l.
Proof. by rewrite Array_sort_perm. Qed.

Lemma Array_sort_nil_inv l : Array_sort cmp l = [] → l = [].
Proof.
  intros H. apply nil_length_inv. by rewrite <- Array_sort_length, H.
Qed.
End sort.

(** The comparator used when no [sortFn] is given is positive exactly when
    the second entry has strictly more votes. *)
Lemma default_comparator_pos a b :
  (0 <? resultComparator None a b)%Z = true ↔ (votes a < votes b)%nat.
Proof. unfold resultComparator. rewrite Z.ltb_lt. lia. Qed.

Lemma default_insert_sorted x l :
  StronglySorted votesDescending l →
  StronglySorted votesDescending (sort_insert (resultComparator None) x l).
Proof.
  induction 1 as [|y l Hl IH Hy]; cbn [sort_insert]; [repeat constructor|].
  destruct (0 <? resultComparator None x y)%Z eqn:Hc.
  - apply default_comparator_pos in Hc. constructor; [done|].
    rewrite sort_insert_perm. constructor; [|done].
    unfold votesDescending. lia.
  - assert (votes y ≤ votes x)%nat as Hxy.
    { destruct (decide (votes x < votes y)%nat) as [Hlt|]; [|lia].
      apply default_comparator_pos in Hlt. congruence. }
    constructor; [by constructor|]. constructor; [done|].
    eapply Forall_impl; [exact Hy|]. unfold votesDescending. simpl. lia.
Qed.

Lemma default_sort_sorted l :
  StronglySorted votesDescending (Array_sort (resultComparator None) l).
Proof.
  induction l as [|x l IH]; simpl; [constructor|].
  by apply default_insert_sorted.
Qed.

(** Insertion moves an entry only past entries with another vote count. *)
Lemma default_insert_stable k x l :
  withVoteCount k (sort_insert (resultComparator None) x l)
  = withVoteCount k (x :: l).
Proof.
  unfold withVoteCount. induction l as [|y l IH]; cbn [sort_insert]; [done|].
  destruct (0 <? resultComparator None x y)%Z eqn:Hc; [|done].
  apply default_comparator_pos in Hc.
  rewrite (filter_cons _ y), IH, !filter_cons.
  repeat case_decide; try done; lia.
Qed.

Lemma default_sort_stable k l :
  withVoteCount k (Array_sort (resultComparator None) l) = withVoteCount k l.
Proof.
  induction l as [|x l IH]; simpl; [done|].
  rewrite default_insert_stable. unfold withVoteCount in *.
  by rewrite !filter_cons, IH.
Qed.

(** A rearrangement that is in descending order of votes and keeps the
    order of the entries of every vote count is determined: whatever
    stable sorting procedure the engine uses, the array is the same. *)
Lemma stable_sorted_unique (l1 l2 : list CandidateResult) :
  l1 ≡ₚ l2 →
  StronglySorted votesDescending l1 →
  StronglySorted votesDescending l2 →
  (∀ k, withVoteCount k l1 = withVoteCount k l2) →
  l1 = l2.
Proof.
  revert l2. induction l1 as [|x l1 IH]; intros l2 Hp H1 H2 Hk.
  - by apply Permutation_nil_l in Hp.
  - destruct l2 as [|y l2]; [by apply Permutation_nil_r in Hp|].
    apply StronglySorted_cons in H1 as [Hx H1].
    apply StronglySorted_cons in H2 as [Hy H2].
    assert (votes x = votes y) as Hv.
    { assert (x ∈ y :: l2) as Hxin by (rewrite <- Hp; left).
      assert (y ∈ x :: l1) as Hyin by (rewrite Hp; left).
      apply elem_of_cons in Hxin as [->|Hxin]; [done|].
      apply elem_of_cons in Hyin as [->|Hyin]; [done|].
      rewrite Forall_forall in Hx, Hy.
      specialize (Hx _ Hyin). specialize (Hy _ Hxin).
      unfold votesDescending in *. lia. }
    assert (x = y) as ->.
    { specialize (Hk (votes x)). unfold withVoteCount in Hk.
      rewrite !filter_cons in Hk. rewrite <- Hv in Hk.
      repeat case_decide; congruence. }
    f_equal. apply IH; [by apply Permutation_cons_inv in Hp|done|done|].
    intros k. specialize (Hk k). unfold withVoteCount in *.
    rewrite !filter_cons in Hk. repeat case_decide; congruence.
Qed.

(** ** Sample registries are reachable *)

Lemma sampleRegistered_reachable : reachable sampleCandidates sampleRegistered.
Proof. apply reachable_exec, reachable_init. Qed.

Lemma sampleVoted_reachable : reachable sampleCandidates sampleVoted.
Proof. apply reachable_exec, sampleRegistered_reachable. Qed.

Lemma protoRegistered_reachable : reachable sampleCandidates protoRegistered.
Proof. apply reachable_exec, reachable_init. Qed.

Lemma sample_known_C1 : knownCandidate sampleCandidates "C1".
Proof. apply (bool_decide_unpack _). by vm_compute. Qed.

Lemma sample_known_C2 : knownCandidate sampleCandidates "C2".
Proof. apply (bool_decide_unpack _). by vm_compute. Qed.

Lemma sample_unknown_C99 : ¬ knownCandidate sampleCandidates "C99".
Proof. apply (bool_decide_unpack _). by vm_compute. Qed.

(** ** registerVoter *)

(** C4.  [registerVoter(voter)] returns [false] and leaves the registry as
    it is when the voter is missing or has no id, when the id is already
    registered, or when the age is under 18; in every other case it stores
    the voter under its id and returns [true], the ballots staying as they
    are. *)
Theorem registerVoter_spec (voter : option Voter) (e : Election) :
  (refused voter e → registerVoter voter e = (false, e))
  ∧ (¬ refused voter e →
     ∃ v i, voter = Some v ∧ voter_id v = Some i
       ∧ registerVoter voter e
         = (true, mkElection (candidates e)
                    (<[i := v]> (registeredVoterList e))
                    (candidatedVoted e))).
Proof.
  unfold refused, hasNoId, registerVoter.
  destruct voter as [v|]; [|by split].
  destruct (voter_id v) as [i|] eqn:Hid; [|split; [done|tauto]].
  unfold truthy, Map_has, Map_set.
  destruct (String.eqb_spec i "") as [->|Hne]; simpl.
  { split; [done|]. intros H. exfalso. apply H. by left; right. }
  destruct (decide (is_Some (registeredVoterList e !! i))) as [Hreg|Hreg].
  { rewrite bool_decide_eq_true_2 by done. simpl.
    split; [done|]. intros H. exfalso. apply H. right; left. eauto. }
  rewrite bool_decide_eq_false_2 by done. simpl.
  destruct (Z.ltb_spec (voter_age v) 18) as [Hage|Hage].
  { split; [done|]. intros H. exfalso. apply H. by right; right. }
  split; [|by eauto].
  intros [[?|[=]]|[(j & [= <-] & ?)|?]]; [done|congruence|done|lia].
Qed.

Lemma registerVoter_spec_witness :
  registerVoter (Some (mkVoter (Some "V2") "Chhotu" 17)) sampleRegistered
  = (false, sampleRegistered).
Proof.
  apply (proj1 (registerVoter_spec
                  (Some (mkVoter (Some "V2") "Chhotu" 17)) sampleRegistered)).
  right; right. simpl. lia.
Defined.

(** An id that is the empty string counts as no id (the test [!voter?.id]
    is a truthiness test). *)
Lemma registerVoter_empty_id name age e :
  registerVoter (Some (mkVoter (Some "") name age)) e = (false, e).
Proof. done. Qed.

(** ** castVote *)

(** What a successful call leaves behind when the voter id is not the
    string [__proto__]: the ballot is stored under the voter id. *)
Lemma castVote_records_ballot {R} voterId candidateId
    (onSuccess : Payload → R) (onError : string → R) e :
  voterId ≠ "__proto__" →
  knownCandidate (candidates e) candidateId →
  is_Some (registeredVoterList e !! voterId) →
  candidatedVoted e !! voterId = None →
  let r := castVote voterId candidateId onSuccess onError e in
  r.1 = onSuccess (mkPayload voterId candidateId)
  ∧ candidatedVoted r.2 !! voterId = Some (mkBallot true candidateId voterId)
  ∧ (∀ other, other ≠ voterId →
       candidatedVoted r.2 !! other = candidatedVoted e !! other)
  ∧ registeredVoterList r.2 = registeredVoterList e.
Proof.
  intros Hp Hk Hv Hb. simpl. rewrite castVote_fresh by done. simpl.
  unfold Object_assign. rewrite bool_decide_eq_false_2 by done.
  rewrite lookup_insert_eq. repeat split; try done.
  intros other Ho. by rewrite lookup_insert_ne.
Qed.

(** Such a call adds one vote to the tally of the candidate named and
    leaves the other tallies as they are. *)
Lemma castVote_counts_vote {R} voterId candidateId
    (onSuccess : Payload → R) (onError : string → R) e c :
  voterId ≠ "__proto__" →
  knownCandidate (candidates e) candidateId →
  is_Some (registeredVoterList e !! voterId) →
  candidatedVoted e !! voterId = None →
  ballotsFor (castVote voterId candidateId onSuccess onError e).2 c
  = (ballotsFor e c + if decide (candidateId = c) then 1 else 0)%nat.
Proof.
  intros Hp Hk Hv Hb. rewrite castVote_fresh by done.
  unfold ballotsFor. cbn [candidatedVoted snd].
  unfold Object_assign. rewrite bool_decide_eq_false_2 by done.
  rewrite (map_filter_insert
             (λ kb : string * Ballot, ballot_candidateId kb.2 = c)).
  cbn [snd ballot_candidateId].
  destruct (decide (candidateId = c)) as [Hc|Hc].
  - rewrite map_size_insert_None; [lia|].
    apply map_lookup_filter_None. by left.
  - rewrite delete_id by done. lia.
Qed.

(** Every call that fails calls [onError] and changes nothing. *)
Lemma castVote_failure {R} cands voterId candidateId
    (onSuccess : Payload → R) (onError : string → R) e :
  reachable cands e →
  ¬ (knownCandidate cands candidateId
     ∧ is_Some (registeredVoterList e !! voterId)
     ∧ candidatedVoted e !! voterId = None) →
  ∃ reason, castVote voterId candidateId onSuccess onError e = (onError reason, e).
Proof.
  intros He Hfail. rewrite <- (reachable_candidates _ _ He) in Hfail.
  destruct (decide (knownCandidate (candidates e) candidateId)) as [Hk|Hk];
    [|rewrite castVote_wrong_candidate by done; eauto].
  destruct (registeredVoterList e !! voterId) as [w|] eqn:Hw;
    [|rewrite castVote_unauthorized by done; eauto].
  destruct (candidatedVoted e !! voterId) as [b|] eqn:Hb;
    [|exfalso; apply Hfail; eauto].
  destruct (reachable_ballotsWellFormed _ _ He _ _ Hb) as (Hvoted & _).
  erewrite castVote_already by eauto. eauto.
Qed.

(** C1.  A voter whose id is the string [__proto__] is registered, names
    a candidate of the list and has no recorded ballot; the call calls
    [onSuccess] with the payload and returns its value, but records no
    ballot: the registry after the call is the registry before it, so the
    vote is counted for no one and the same voter succeeds again. *)
Theorem castVote_proto_records_nothing :
  registerVoter (Some (mkVoter (Some "__proto__") "Gita" 30))
    (createElection sampleCandidates) = (true, protoRegistered)
  ∧ is_Some (registeredVoterList protoRegistered !! "__proto__")
  ∧ knownCandidate (candidates protoRegistered) "C1"
  ∧ candidatedVoted protoRegistered !! "__proto__" = None
  ∧ (∀ R (onSuccess : Payload → R) (onError : string → R),
       castVote "__proto__" "C1" onSuccess onError protoRegistered
       = (onSuccess (mkPayload "__proto__" "C1"), protoRegistered))
  ∧ candidatedVoted (exec [OpCastVote "__proto__" "C1"] protoRegistered) = ∅
  ∧ (getResults None (exec [OpCastVote "__proto__" "C1"] protoRegistered)).1
    = [mkResult "C1" "Ram" "Janata" 0; mkResult "C2" "Sita" "Lok" 0].
Proof.
  split; [done|].
  split; [by vm_compute; eauto|].
  split; [exact sample_known_C1|].
  split; [done|].
  split; [|split; by vm_compute].
  intros R onSuccess onError. rewrite castVote_fresh.
  - done.
  - exact sample_known_C1.
  - by vm_compute; eauto.
  - done.
Qed.

(** C2.  In every reachable registry the checks of [castVote] come in a
    fixed order: an unknown candidate gives "Wrong candidate!" whatever the
    voter; a known candidate and an unregistered voter give "Unauthorized
    voter!"; a known candidate and a registered voter with a recorded
    ballot give "Already voted!"; otherwise [onSuccess] is called.  The
    failing calls change nothing, and the three reasons differ. *)
Theorem castVote_validation_order {R} cands e voterId candidateId
    (onSuccess : Payload → R) (onError : string → R) :
  reachable cands e →
  let r := castVote voterId candidateId onSuccess onError e in
  (¬ knownCandidate cands candidateId → r = (onError "Wrong candidate!", e))
  ∧ (knownCandidate cands candidateId →
     registeredVoterList e !! voterId = None →
     r = (onError "Unauthorized voter!", e))
  ∧ (knownCandidate cands candidateId →
     is_Some (registeredVoterList e !! voterId) →
     is_Some (candidatedVoted e !! voterId) →
     r = (onError "Already voted!", e))
  ∧ (knownCandidate cands candidateId →
     is_Some (registeredVoterList e !! voterId) →
     candidatedVoted e !! voterId = None →
     r.1 = onSuccess (mkPayload voterId candidateId))
  ∧ "Wrong candidate!" ≠ "Unauthorized voter!"
  ∧ "Wrong candidate!" ≠ "Already voted!"
  ∧ "Unauthorized voter!" ≠ "Already voted!".
Proof.
  intros He. simpl. rewrite <- (reachable_candidates _ _ He).
  split; [apply castVote_wrong_candidate|].
  split; [apply castVote_unauthorized|].
  split.
  { intros Hk Hv [b Hb].
    destruct (reachable_ballotsWellFormed _ _ He _ _ Hb) as (Hvoted & _).
    by eapply castVote_already. }
  split; [|done].
  intros Hk Hv Hb. by rewrite castVote_fresh.
Qed.

Lemma castVote_validation_order_witness :
  castVote "V1" "C2" CalledSuccess CalledError sampleVoted
  = (CalledError "Already voted!", sampleVoted).
Proof.
  apply (castVote_validation_order sampleCandidates sampleVoted "V1" "C2"
           CalledSuccess CalledError sampleVoted_reachable).
  - exact sample_known_C2.
  - by vm_compute; eauto.
  - by vm_compute; eauto.
Defined.

(** C3.  For a voter id that is not registered, [castVote] calls
    [onError]: with "Unauthorized voter!" when the candidate id is that of
    a candidate of the list, and with "Wrong candidate!" when it is not;
    the registry is unchanged. *)
Theorem castVote_unregistered_voter {R} e voterId candidateId
    (onSuccess : Payload → R) (onError : string → R) :
  registeredVoterList e !! voterId = None →
  castVote voterId candidateId onSuccess onError e
  = (onError (if decide (knownCandidate (candidates e) candidateId)
              then "Unauthorized voter!" else "Wrong candidate!"), e).
Proof.
  intros Hv. case_decide.
  - by apply castVote_unauthorized.
  - by apply castVote_wrong_candidate.
Qed.

Lemma castVote_unregistered_voter_witness :
  castVote "V99" "C1" CalledSuccess CalledError sampleRegistered
  = (CalledError "Unauthorized voter!", sampleRegistered).
Proof.
  apply (castVote_unregistered_voter sampleRegistered "V99" "C1"
           CalledSuccess CalledError).
  reflexivity.
Defined.

(** An unregistered voter id together with an unknown candidate id: the
    reason handed to [onError] is "Wrong candidate!", not "Unauthorized
    voter!". *)
Lemma castVote_unregistered_unknown_candidate :
  registeredVoterList sampleRegistered !! "V99" = None
  ∧ ¬ knownCandidate (candidates sampleRegistered) "C99"
  ∧ (castVote "V99" "C99" CalledSuccess CalledError sampleRegistered).1
    = CalledError "Wrong candidate!"
  ∧ (castVote "V99" "C99" CalledSuccess CalledError sampleRegistered).1
    ≠ CalledError "Unauthorized voter!".
Proof.
  split; [done|]. split; [exact sample_unknown_C99|].
  split; [by vm_compute|]. by vm_compute.
Qed.

(** C5.  A recorded ballot is final.  In every state reached later it is
    still recorded, unchanged, and a later [castVote] with the same voter
    id calls [onError] and changes nothing: with "Already voted!" when the
    candidate id is that of a candidate of the list, with "Wrong
    candidate!" when it is not. *)
Theorem recorded_ballot_final {R} cands e voterId b ops candidateId
    (onSuccess : Payload → R) (onError : string → R) :
  reachable cands e →
  candidatedVoted e !! voterId = Some b →
  let e' := exec ops e in
  candidatedVoted e' !! voterId = Some b
  ∧ castVote voterId candidateId onSuccess onError e'
    = (onError (if decide (knownCandidate cands candidateId)
                then "Already voted!" else "Wrong candidate!"), e').
Proof.
  intros He Hb e'.
  assert (reachable cands e') as He' by by apply reachable_exec.
  assert (candidatedVoted e' !! voterId = Some b) as Hb'
    by by eapply exec_keeps_ballot.
  split; [done|].
  destruct (reachable_ballotsWellFormed _ _ He' _ _ Hb') as (Hvoted & _ & Hv & _).
  rewrite <- (reachable_candidates _ _ He'). case_decide.
  - by eapply castVote_already.
  - by apply castVote_wrong_candidate.
Qed.

Lemma recorded_ballot_final_witness :
  candidatedVoted
    (exec [OpRegisterVoter (Some (mkVoter (Some "V2") "Sohan" 40));
           OpCastVote "V1" "C2"] sampleVoted) !! "V1"
  = Some (mkBallot true "C1" "V1")
  ∧ castVote "V1" "C2" CalledSuccess CalledError
      (exec [OpRegisterVoter (Some (mkVoter (Some "V2") "Sohan" 40));
             OpCastVote "V1" "C2"] sampleVoted)
    = (CalledError
         (if decide (knownCandidate sampleCandidates "C2")
          then "Already voted!" else "Wrong candidate!"),
       exec [OpRegisterVoter (Some (mkVoter (Some "V2") "Sohan" 40));
             OpCastVote "V1" "C2"] sampleVoted).
Proof.
  apply (recorded_ballot_final sampleCandidates sampleVoted "V1"
           (mkBallot true "C1" "V1") _ "C2" CalledSuccess CalledError
           sampleVoted_reachable).
  reflexivity.
Defined.

(** A voter who has voted and then names an unknown candidate is told
    "Wrong candidate!", not "Already voted!". *)
Lemma castVote_again_unknown_candidate :
  (castVote "V1" "C1" CalledSuccess CalledError sampleRegistered).1
  = CalledSuccess (mkPayload "V1" "C1")
  ∧ (castVote "V1" "C1" CalledSuccess CalledError sampleRegistered).2
    = sampleVoted
  ∧ candidatedVoted sampleVoted !! "V1" = Some (mkBallot true "C1" "V1")
  ∧ (castVote "V1" "C99" CalledSuccess CalledError sampleVoted).1
    = CalledError "Wrong candidate!"
  ∧ (castVote "V1" "C99" CalledSuccess CalledError sampleVoted).1
    ≠ CalledError "Already voted!".
Proof. repeat split; by vm_compute. Qed.

(** C6.  In every reachable registry, a voter id with a recorded ballot is
    a registered voter id, and the ballot names a candidate of the list
    the registry was created from. *)
Theorem ballots_registered_and_known cands e voterId b :
  reachable cands e →
  candidatedVoted e !! voterId = Some b →
  is_Some (registeredVoterList e !! voterId)
  ∧ knownCandidate cands (ballot_candidateId b).
Proof.
  intros He Hb.
  by destruct (reachable_ballotsWellFormed _ _ He _ _ Hb) as (_ & _ & ? & ?).
Qed.

Lemma ballots_registered_and_known_witness :
  is_Some (registeredVoterList sampleVoted !! "V1")
  ∧ knownCandidate sampleCandidates
      (ballot_candidateId (mkBallot true "C1" "V1")).
Proof.
  apply (ballots_registered_and_known sampleCandidates sampleVoted "V1"
           (mkBallot true "C1" "V1") sampleVoted_reachable).
  reflexivity.
Defined.

(** ** getResults and getWinner *)

(** C7.  Without a comparator, [getResults] returns a rearrangement of the
    candidate list in which every candidate carries the number of recorded
    ballots naming its id; the entries are in descending order of votes,
    and the entries of any one vote count come in the order of the
    candidate list. *)
Theorem getResults_default e :
  let tallied :=
    (λ c, mkResult (cand_id c) (cand_name c) (cand_party c)
            (ballotsFor e (cand_id c))) <$> candidates e in
  let results := (getResults None e).1 in
  results ≡ₚ tallied
  ∧ length results = length (candidates e)
  ∧ StronglySorted votesDescending results
  ∧ ∀ k, withVoteCount k results = withVoteCount k tallied.
Proof.
  assert ((λ c, mkResult (cand_id c) (cand_name c) (cand_party c)
                  (ballotsFor e (cand_id c))) <$> candidates e
          = map (withVotes e) (candidates e)) as ->.
  { apply list_fmap_ext. intros _ c _. unfold withVotes.
    by rewrite countVotes_ballotsFor. }
  unfold getResults. cbn [fst].
  split; [apply Array_sort_perm|].
  split; [by rewrite Array_sort_length, length_map|].
  split; [apply default_sort_sorted|].
  intros k. apply default_sort_stable.
Qed.

(** With a candidate in the list, [getResults] has a first entry. *)
Lemma getResults_nonempty sortFn e :
  candidates e ≠ [] → ∃ top rest, (getResults sortFn e).1 = top :: rest.
Proof.
  intros Hne. destruct (getResults sortFn e).1 as [|top rest] eqn:Hr; [|by eauto].
  exfalso. apply Hne. unfold getResults in Hr. cbn [fst] in Hr.
  apply Array_sort_nil_inv in Hr. by apply fmap_nil_inv in Hr.
Qed.

(** Every entry of [getResults] has no vote when no ballot is recorded. *)
Lemma getResults_no_ballots sortFn e r :
  candidatedVoted e = ∅ → r ∈ (getResults sortFn e).1 → votes r = 0%nat.
Proof.
  intros Hempty Hin. unfold getResults in Hin. cbn [fst] in Hin.
  rewrite Array_sort_perm in Hin.
  apply list_elem_of_fmap in Hin as (c & -> & _). simpl.
  by apply countVotes_no_ballots.
Qed.

(** [getWinner] in terms of the first entry of [getResults()]. *)
Lemma getWinner_unfold e :
  getWinner e
  = (match (getResults None e).1 with
     | [] => ThrewTypeError
     | top :: _ => Returned (if (0 <? votes top)%nat then Some top else None)
     end, e).
Proof.
  unfold getWinner, getResults. cbn [fst].
  by destruct (Array_sort _ _).
Qed.

(** C8.  With a non-empty candidate list, [getWinner] returns the first
    entry of [getResults()] when that entry has a vote, and [null] when it
    has none; with no recorded ballot at all it returns [null]. *)
Theorem getWinner_first_result e :
  candidates e ≠ [] →
  ∃ top rest,
    (getResults None e).1 = top :: rest
    ∧ ((0 < votes top)%nat → getWinner e = (Returned (Some top), e))
    ∧ (votes top = 0%nat → getWinner e = (Returned None, e))
    ∧ (candidatedVoted e = ∅ → getWinner e = (Returned None, e)).
Proof.
  intros Hne. destruct (getResults_nonempty None e Hne) as (top & rest & Hr).
  exists top, rest. rewrite getWinner_unfold, Hr.
  split; [done|].
  split; [by intros ->%Nat.ltb_lt|].
  split; [by intros ->|].
  intros Hempty. rewrite (getResults_no_ballots None e top); [done|done|].
  rewrite Hr. left.
Qed.

Lemma getWinner_first_result_witness :
  ∃ top rest,
    (getResults None sampleVoted).1 = top :: rest
    ∧ ((0 < votes top)%nat → getWinner sampleVoted = (Returned (Some top), sampleVoted))
    ∧ (votes top = 0%nat → getWinner sampleVoted = (Returned None, sampleVoted))
    ∧ (candidatedVoted sampleVoted = ∅
       → getWinner sampleVoted = (Returned None, sampleVoted)).
Proof.
  apply (getWinner_first_result sampleVoted). simpl. discriminate.
Defined.

(** The winner after V1 has voted for C1. *)
Example getWinner_sampleVoted :
  (getWinner sampleVoted).1 = Returned (Some (mkResult "C1" "Ram" "Janata" 1)).
Proof. by vm_compute. Qed.

(** C9.  [getResults], with or without a comparator, returns the registry
    it was given: after any number of calls the candidates, the registered
    voters and the ballots are the same, and every later call of any
    method has the same outcome and the same effect as without them. *)
Theorem getResults_frame (sortFns : list (option (CandidateResult → CandidateResult → Z)))
    (e : Election) :
  exec (OpGetResults <$> sortFns) e = e
  ∧ ∀ op, run op (exec (OpGetResults <$> sortFns) e) = run op e.
Proof.
  assert (exec (OpGetResults <$> sortFns) e = e) as Hsame.
  { induction sortFns as [|f fs IH]; [done|].
    rewrite fmap_cons, exec_cons. exact IH. }
  split; [done|]. intros op. by rewrite Hsame.
Qed.

(** C10.  [getWinner] throws exactly when the candidate list is empty; a
    registry created from the empty list stays in that case after any
    calls: [getResults()] is empty and [getWinner] neither returns [null]
    nor a candidate. *)
Theorem getWinner_empty_candidates :
  (∀ e, (getWinner e).1 = ThrewTypeError ↔ candidates e = [])
  ∧ (∀ e, reachable [] e →
       (getResults None e).1 = [] ∧ getWinner e = (ThrewTypeError, e)).
Proof.
  assert (∀ e, candidates e = [] → getWinner e = (ThrewTypeError, e)) as Hthrow.
  { intros e He. unfold getWinner, getResults. by rewrite He. }
  split.
  - intros e. split; [|by intros ->%Hthrow].
    intros Hw. destruct (candidates e) as [|c cs] eqn:Hc; [done|].
    destruct (getResults_nonempty None e) as (top & rest & Hr);
      [by rewrite Hc|].
    by rewrite getWinner_unfold, Hr in Hw.
  - intros e He%reachable_candidates. split; [|by apply Hthrow].
    unfold getResults. by rewrite He.
Qed.

Lemma getWinner_empty_candidates_witness :
  (getResults None (exec [OpRegisterVoter (Some mohan); OpCastVote "V1" "C1"]
                      (createElection []))).1 = []
  ∧ getWinner (exec [OpRegisterVoter (Some mohan); OpCastVote "V1" "C1"]
                 (createElection []))
    = (ThrewTypeError,
       exec [OpRegisterVoter (Some mohan); OpCastVote "V1" "C1"]
         (createElection [])).
Proof.
  apply (proj2 getWinner_empty_candidates).
  apply reachable_exec, reachable_init.
Defined.

(** ** Further properties of the registry *)




Lemma step_keeps_voter op e i v :
  registeredVoterList e !! i = Some v →
  registeredVoterList (step op e) !! i = Some v.
Proof.
  intros Hi. destruct op as [voter|vid cid|sortFn|]; unfold step; simpl.
  - by apply registerVoter_keeps_voter.
  - by rewrite castVote_voters.
  - done.
  - by rewrite getWinner_state.
Qed.

(** X2.  A registration is final: whatever calls follow, the voter record
    stored under an id stays the one first registered, and every further
    [registerVoter] with that id returns [false] and changes nothing. *)
Theorem registration_final e i v ops w :
  registeredVoterList e !! i = Some v →
  voter_id w = Some i →
  registeredVoterList (exec ops e) !! i = Some v
  ∧ registerVoter (Some w) (exec ops e) = (false, exec ops e).
Proof.
  intros Hi Hw.
  assert (registeredVoterList (exec ops e) !! i = Some v) as Hi'.
  { revert e Hi. induction ops as [|op ops IH]; intros e Hi; [done|].
    rewrite exec_cons. by apply IH, step_keeps_voter. }
  split; [done|].
  unfold registerVoter. rewrite Hw. unfold Map_has.
  rewrite (bool_decide_eq_true_2 _ (ltac:(by eexists) : is_Some _)).
  by rewrite orb_true_r.
Qed.

Lemma registration_final_witness :
  registeredVoterList
    (exec [OpCastVote "V1" "C1"; OpRegisterVoter (Some (mkVoter (Some "V1") "Impostor" 50))]
       sampleRegistered) !! "V1" = Some mohan
  ∧ registerVoter (Some (mkVoter (Some "V1") "Impostor" 50))
      (exec [OpCastVote "V1" "C1"; OpRegisterVoter (Some (mkVoter (Some "V1") "Impostor" 50))]
         sampleRegistered)
    = (false,
       exec [OpCastVote "V1" "C1"; OpRegisterVoter (Some (mkVoter (Some "V1") "Impostor" 50))]
         sampleRegistered).
Proof.
  apply (registration_final sampleRegistered "V1" mohan); reflexivity.
Defined.

(** X3.  In every reachable registry there are at most as many recorded
    ballots as registered voters. *)
Theorem ballots_at_most_voters cands e :
  reachable cands e →
  (size (candidatedVoted e) ≤ size (registeredVoterList e))%nat.
Proof.
  intros He. rewrite <- !size_dom. apply subseteq_size.
  intros i [b Hb]%elem_of_dom. apply elem_of_dom.
  by destruct (reachable_ballotsWellFormed _ _ He _ _ Hb) as (_ & _ & ? & _).
Qed.

Lemma ballots_at_most_voters_witness :
  (size (candidatedVoted sampleVoted) ≤ size (registeredVoterList sampleVoted))%nat.
Proof. apply (ballots_at_most_voters sampleCandidates), sampleVoted_reachable. Defined.
(** ** Every ballot is counted once *)

Lemma sum_list_with_add {A} (f g : A → nat) l :
  sum_list_with (λ x, f x + g x)%nat l
  = (sum_list_with f l + sum_list_with g l)%nat.
Proof. induction l as [|x l IH]; simpl; lia. Qed.

Lemma sum_list_with_ext {A} (f g : A → nat) l :
  (∀ x, f x = g x) → sum_list_with f l = sum_list_with g l.
Proof. intros H. induction l as [|x l IH]; simpl; [done|]. by rewrite H, IH. Qed.

Lemma sum_list_with_zero {A} (l : list A) : sum_list_with (λ _, 0%nat) l = 0%nat.
Proof. induction l; simpl; done. Qed.

(** Among candidates with distinct ids, exactly one has a given known id. *)
Lemma one_candidate_per_id (cands : list Candidate) candidateId :
  NoDup (cand_id <$> cands) →
  knownCandidate cands candidateId →
  sum_list_with (λ c, if decide (candidateId = cand_id c) then 1 else 0)%nat cands
  = 1%nat.
Proof.
  unfold knownCandidate. induction cands as [|c cands IH]; simpl.
  - intros _ H. by apply elem_of_nil in H.
  - rewrite NoDup_cons. intros [Hc Hnd] Hin.
    destruct (decide (candidateId = cand_id c)) as [->|Hne].
    + assert (sum_list_with
                (λ c', if decide (cand_id c = cand_id c') then 1 else 0)%nat cands
              = 0%nat) as ->; [|done].
      clear IH Hnd Hin. induction cands as [|c' cands IH]; simpl; [done|].
      rewrite fmap_cons, not_elem_of_cons in Hc. destruct Hc as [Hne Hc].
      rewrite decide_False by done. by apply IH.
    + apply elem_of_cons in Hin as [?|Hin]; [done|]. by rewrite IH.
Qed.

Lemma tallies_add_up (cands : list Candidate) (m : gmap string Ballot) :
  NoDup (cand_id <$> cands) →
  (∀ i b, m !! i = Some b → knownCandidate cands (ballot_candidateId b)) →
  sum_list_with
    (λ c, size (filter (λ kb : string * Ballot,
                          ballot_candidateId kb.2 = cand_id c) m)) cands
  = size m.
Proof.
  intros Hnd. induction m as [|i b m Hi IH] using map_ind; intros Hknown.
  - rewrite map_size_empty.
    rewrite (sum_list_with_ext _ (λ _, 0%nat)).
    + apply sum_list_with_zero.
    + intros c. by rewrite map_filter_empty, map_size_empty.
  - rewrite map_size_insert_None by done.
    assert (knownCandidate cands (ballot_candidateId b)) as Hb.
    { apply (Hknown i b). by rewrite lookup_insert_eq. }
    assert (∀ j b', m !! j = Some b' →
              knownCandidate cands (ballot_candidateId b')) as Hm.
    { intros j b' Hj. apply (Hknown j b').
      rewrite lookup_insert_ne; [done|]. intros ->. congruence. }
    rewrite (sum_list_with_ext _
      (λ c, size (filter (λ kb : string * Ballot,
                            ballot_candidateId kb.2 = cand_id c) m)
            + (if decide (ballot_candidateId b = cand_id c) then 1 else 0))%nat).
    + rewrite sum_list_with_add, (IH Hm), one_candidate_per_id by done. lia.
    + intros c.
      rewrite (map_filter_insert
                 (λ kb : string * Ballot, ballot_candidateId kb.2 = cand_id c)).
      cbn [snd]. destruct (decide (ballot_candidateId b = cand_id c)).
      * rewrite map_size_insert_None; [lia|].
        apply map_lookup_filter_None. by left.
      * rewrite delete_id by done. lia.
Qed.

Lemma totalVotes_withVotes e (l : list Candidate) :
  sum_list_with votes (map (withVotes e) l)
  = sum_list_with (λ c, ballotsFor e (cand_id c)) l.
Proof.
  induction l as [|c l IH]; [done|]. cbn.
  by rewrite IH, countVotes_ballotsFor.
Qed.

(** X4.  When the candidates have distinct ids, the votes reported by
    [getResults], added up, are the number of recorded ballots: in a
    reachable registry every ballot is counted for exactly one candidate,
    whatever comparator is given. *)
Theorem getResults_counts_every_ballot cands e sortFn :
  reachable cands e →
  NoDup (cand_id <$> cands) →
  totalVotes (getResults sortFn e).1 = size (candidatedVoted e).
Proof.
  intros He Hnd. unfold totalVotes, getResults. cbn [fst].
  rewrite Array_sort_perm.
  rewrite (reachable_candidates _ _ He).
  rewrite <- (tallies_add_up cands (candidatedVoted e) Hnd).
  - apply totalVotes_withVotes.
  - intros i b Hb.
    by destruct (reachable_ballotsWellFormed _ _ He _ _ Hb) as (_ & _ & _ & ?).
Qed.

Lemma getResults_counts_every_ballot_witness :
  totalVotes (getResults None sampleVoted).1 = size (candidatedVoted sampleVoted).
Proof.
  apply (getResults_counts_every_ballot sampleCandidates sampleVoted None
           sampleVoted_reachable).
  apply (bool_decide_unpack _). by vm_compute.
Defined.

(** X5.  A vote that succeeds, cast by a voter whose id is not the string
    [__proto__], adds one to the count [getResults] computes for every
    candidate carrying the id voted for and leaves the other counts as
    they were. *)
Theorem successful_vote_counted {R} voterId candidateId
    (onSuccess : Payload → R) (onError : string → R) e c :
  voterId ≠ "__proto__" →
  knownCandidate (candidates e) candidateId →
  is_Some (registeredVoterList e !! voterId) →
  candidatedVoted e !! voterId = None →
  countVotes (castVote voterId candidateId onSuccess onError e).2 c
  = (countVotes e c + if decide (candidateId = cand_id c) then 1 else 0)%nat.
Proof.
  intros Hp Hk Hv Hb. rewrite !countVotes_ballotsFor.
  by apply castVote_counts_vote.
Qed.

Lemma successful_vote_counted_witness :
  countVotes (castVote "V1" "C1" CalledSuccess CalledError sampleRegistered).2
    (mkCandidate "C1" "Ram" "Janata")
  = (countVotes sampleRegistered (mkCandidate "C1" "Ram" "Janata")
     + if decide ("C1" = cand_id (mkCandidate "C1" "Ram" "Janata")) then 1 else 0)%nat.
Proof.
  apply (successful_vote_counted "V1" "C1" CalledSuccess CalledError
           sampleRegistered).
  - discriminate.
  - exact sample_known_C1.
  - vm_compute. eauto.
  - reflexivity.
Defined.

(** ** The winner *)

Lemma filter_head_split {A} (P : A → Prop) `{∀ x, Decision (P x)} l x r :
  filter P l = x :: r →
  ∃ l1 l2, l = (l1 ++ x :: l2)%list ∧ Forall (λ y, ¬ P y) l1.
Proof.
  induction l as [|y l IH]; [done|]. rewrite filter_cons.
  destruct (decide (P y)) as [Hy|Hy].
  - intros [= -> _]. by exists [], l.
  - intros (l1 & l2 & -> & Hl1)%IH. exists (y :: l1), l2.
    split; [done|]. by constructor.
Qed.

(** X6.  When [getWinner] returns a candidate, that candidate has a vote,
    no candidate has more votes, and every candidate standing before it in
    the candidate list has strictly fewer: among tied candidates the first
    of the list wins. *)
Theorem getWinner_first_with_most_votes e w :
  getWinner e = (Returned (Some w), e) →
  ∃ before c after,
    candidates e = (before ++ c :: after)%list
    ∧ w = mkResult (cand_id c) (cand_name c) (cand_party c)
            (ballotsFor e (cand_id c))
    ∧ (0 < votes w)%nat
    ∧ (∀ c', c' ∈ candidates e → (ballotsFor e (cand_id c') ≤ votes w)%nat)
    ∧ (∀ c', c' ∈ before → (ballotsFor e (cand_id c') < votes w)%nat).
Proof.
  rewrite getWinner_unfold. unfold getResults. cbn [fst].
  set (tallied := map (withVotes e) (candidates e)).
  pose proof (Array_sort_perm (resultComparator None) tallied) as Hperm.
  pose proof (default_sort_sorted tallied) as Hsorted.
  pose proof (default_sort_stable (votes w) tallied) as Hstable.
  destruct (Array_sort (resultComparator None) tallied) as [|top rest]; [done|].
  destruct (0 <? votes top)%nat eqn:Hpos; [|done].
  intros [= ->]. apply Nat.ltb_lt in Hpos.
  apply StronglySorted_cons in Hsorted as [Hmax _].
  assert (∀ c', c' ∈ candidates e → (ballotsFor e (cand_id c') ≤ votes w)%nat)
    as Hall.
  { intros c' Hc'. rewrite <- countVotes_ballotsFor.
    assert (withVotes e c' ∈ w :: rest) as Hin.
    { rewrite Hperm. unfold tallied. by apply list_elem_of_fmap_2. }
    apply elem_of_cons in Hin as [<-|Hin]; [done|].
    rewrite Forall_forall in Hmax. apply (Hmax _ Hin). }
  unfold withVoteCount in Hstable. rewrite filter_cons_True in Hstable by done.
  symmetry in Hstable.
  apply filter_head_split in Hstable as (l1 & l2 & Hsplit & Hl1).
  unfold tallied in Hsplit.
  apply fmap_app_inv in Hsplit as (before & tail & -> & Htail & Hcands).
  symmetry in Htail. apply fmap_cons_inv in Htail as (c & after & Hw & -> & ->).
  exists before, c, after. rewrite Hcands in Hall.
  split; [done|]. split.
  { rewrite Hw. unfold withVotes. by rewrite countVotes_ballotsFor. }
  split; [done|]. split; [by rewrite Hcands|].
  intros c' Hc'.
  assert (ballotsFor e (cand_id c') ≤ votes w)%nat as Hle.
  { apply Hall. apply elem_of_app. by left. }
  assert (votes (withVotes e c') ≠ votes w) as Hne.
  { rewrite Forall_fmap, Forall_forall in Hl1. by apply Hl1. }
  simpl in Hne. rewrite countVotes_ballotsFor in Hne. lia.
Qed.

Lemma getWinner_first_with_most_votes_witness :
  ∃ before c after,
    candidates sampleVoted = (before ++ c :: after)%list
    ∧ mkResult "C1" "Ram" "Janata" 1
      = mkResult (cand_id c) (cand_name c) (cand_party c)
          (ballotsFor sampleVoted (cand_id c))
    ∧ (0 < votes (mkResult "C1" "Ram" "Janata" 1))%nat
    ∧ (∀ c', c' ∈ candidates sampleVoted →
         (ballotsFor sampleVoted (cand_id c')
          ≤ votes (mkResult "C1" "Ram" "Janata" 1))%nat)
    ∧ (∀ c', c' ∈ before →
         (ballotsFor sampleVoted (cand_id c')
          < votes (mkResult "C1" "Ram" "Janata" 1))%nat).
Proof.
  apply (getWinner_first_with_most_votes sampleVoted
           (mkResult "C1" "Ram" "Janata" 1)).
  by vm_compute.
Defined.

(** A ballot that names a candidate gives that candidate a vote. *)
Lemma ballotsFor_pos e voterId b :
  candidatedVoted e !! voterId = Some b →
  (0 < ballotsFor e (ballot_candidateId b))%nat.
Proof.
  intros Hb. unfold ballotsFor.
  apply Nat.neq_0_lt_0, map_size_non_empty_iff. intros Hempty.
  assert (filter (λ kb : string * Ballot,
                    ballot_candidateId kb.2 = ballot_candidateId b)
            (candidatedVoted e) !! voterId = Some b) as Hin
    by by apply map_lookup_filter_Some.
  by rewrite Hempty, lookup_empty in Hin.
Qed.

(** X7.  In a reachable registry with at least one candidate, [getWinner]
    returns [null] exactly when no ballot is recorded: as soon as one
    ballot is recorded there is a winner. *)
Theorem getWinner_null_iff_no_ballots cands e :
  reachable cands e →
  cands ≠ [] →
  getWinner e = (Returned None, e) ↔ candidatedVoted e = ∅.
Proof.
  intros He Hne. pose proof (reachable_candidates _ _ He) as Hc.
  destruct (getResults_nonempty None e) as (top & rest & Hr); [by rewrite Hc|].
  rewrite getWinner_unfold, Hr. split.
  - intros Hnull. apply map_empty. intros i.
    destruct (candidatedVoted e !! i) as [b|] eqn:Hb; [exfalso|done].
    destruct (reachable_ballotsWellFormed _ _ He _ _ Hb) as (_ & _ & _ & Hk).
    apply list_elem_of_fmap in Hk as (c & Hcid & Hcin).
    pose proof (ballotsFor_pos _ _ _ Hb) as Hpos. rewrite Hcid in Hpos.
    assert (votes (withVotes e c) ≤ votes top)%nat as Hle.
    { pose proof (default_sort_sorted (map (withVotes e) (candidates e))) as Hs.
      assert (withVotes e c ∈ top :: rest) as Hin.
      { rewrite <- Hr. unfold getResults. cbn [fst]. rewrite Array_sort_perm.
        apply list_elem_of_fmap_2. by rewrite Hc. }
      unfold getResults in Hr. cbn [fst] in Hr. rewrite Hr in Hs.
      apply StronglySorted_cons in Hs as [Hmax _].
      apply elem_of_cons in Hin as [<-|Hin]; [done|].
      rewrite Forall_forall in Hmax. apply (Hmax _ Hin). }
    simpl in Hle. rewrite countVotes_ballotsFor in Hle.
    destruct (Nat.ltb_spec 0 (votes top)); [done|lia].
  - intros Hempty. rewrite (getResults_no_ballots None e top); [done|done|].
    rewrite Hr. left.
Qed.

Lemma getWinner_null_iff_no_ballots_witness :
  getWinner sampleRegistered = (Returned None, sampleRegistered)
  ↔ candidatedVoted sampleRegistered = ∅.
Proof.
  apply (getWinner_null_iff_no_ballots sampleCandidates sampleRegistered
           sampleRegistered_reachable).
  discriminate.
Defined.

(** ** getResults with a comparator *)

Section sort_consistent.
Context {A : Type} (cmp : A → A → Z).
Hypothesis Hcmp : consistentComparator cmp.

Lemma consistent_greater_smaller a b : (0 < cmp a b)%Z → (cmp b a < 0)%Z.
Proof.
  destruct Hcmp as (Hrefl & Hsym & _ & _ & Hgt). intros Hab.
  destruct (Z.lt_trichotomy (cmp b a) 0) as [?|[Hba|Hba]]; [done| |].
  - pose proof (Hsym _ _ Hba). lia.
  - pose proof (Hgt _ _ _ Hab Hba). pose proof (Hrefl a). lia.
Qed.

Lemma consistent_smaller_greater a b : (cmp a b < 0)%Z → (0 < cmp b a)%Z.
Proof.
  destruct Hcmp as (Hrefl & Hsym & _ & Hlt & _). intros Hab.
  destruct (Z.lt_trichotomy (cmp b a) 0) as [Hba|[Hba|?]]; [| |done].
  - pose proof (Hlt _ _ _ Hab Hba). pose proof (Hrefl a). lia.
  - pose proof (Hsym _ _ Hba). lia.
Qed.

Lemma mayPrecede_trans a b c :
  mayPrecede cmp a b → mayPrecede cmp b c → mayPrecede cmp a c.
Proof.
  destruct Hcmp as (Hrefl & Hsym & Heq & Hlt & Hgt). unfold mayPrecede.
  intros Hab Hbc.
  destruct (Z.lt_trichotomy (cmp a c) 0) as [?|[?|Hac]]; [lia|lia|exfalso].
  pose proof (consistent_greater_smaller _ _ Hac) as Hca.
  destruct (Z.lt_trichotomy (cmp a b) 0) as [Hab'|[Hab'|?]]; [| |lia];
    destruct (Z.lt_trichotomy (cmp b c) 0) as [Hbc'|[Hbc'|?]]; try lia.
  - pose proof (Hlt _ _ _ Hab' Hbc'). lia.
  - pose proof (Hlt _ _ _ Hca Hab') as Hcb.
    pose proof (Hsym _ _ Hbc'). lia.
  - pose proof (Hlt _ _ _ Hbc' Hca) as Hba.
    pose proof (Hsym _ _ Hab'). lia.
  - pose proof (Heq _ _ _ Hab' Hbc'). lia.
Qed.

Lemma sort_insert_sorted x l :
  StronglySorted (mayPrecede cmp) l →
  StronglySorted (mayPrecede cmp) (sort_insert cmp x l).
Proof.
  induction 1 as [|y l Hl IH Hy]; cbn [sort_insert]; [repeat constructor|].
  destruct (Z.ltb_spec 0 (cmp x y)) as [Hpos|Hle].
  - constructor; [done|]. rewrite sort_insert_perm.
    constructor; [|done]. unfold mayPrecede.
    pose proof (consistent_greater_smaller _ _ Hpos). lia.
  - constructor; [by constructor|]. constructor; [done|].
    eapply Forall_impl; [exact Hy|]. intros z Hz. by eapply mayPrecede_trans.
Qed.

Lemma Array_sort_sorted l : StronglySorted (mayPrecede cmp) (Array_sort cmp l).
Proof.
  induction l as [|x l IH]; simpl; [constructor|].
  by apply sort_insert_sorted.
Qed.

(** An entry moves only past entries that do not compare equal to it. *)
Lemma sort_insert_stable r x l :
  comparingEqual cmp r (sort_insert cmp x l) = comparingEqual cmp r (x :: l).
Proof.
  destruct Hcmp as (Hrefl & Hsym & Heq & _ & _).
  unfold comparingEqual. induction l as [|y l IH]; cbn [sort_insert]; [done|].
  destruct (Z.ltb_spec 0 (cmp x y)) as [Hpos|Hle]; [|done].
  rewrite (filter_cons _ y), IH, !filter_cons.
  destruct (decide (cmp x r = 0%Z)) as [Hx|Hx]; [|done].
  destruct (decide (cmp y r = 0%Z)) as [Hy|Hy]; [|done].
  pose proof (Heq _ _ _ Hx (Hsym _ _ Hy)). lia.
Qed.

Lemma Array_sort_stable r l :
  comparingEqual cmp r (Array_sort cmp l) = comparingEqual cmp r l.
Proof.
  induction l as [|x l IH]; simpl; [done|].
  rewrite sort_insert_stable. unfold comparingEqual in *.
  by rewrite !filter_cons, IH.
Qed.
End sort_consistent.

(** X8.  Given a consistent comparator, [getResults] returns the entries
    in the order of that comparator, no entry standing before one that the
    comparator puts strictly before it, and entries that compare equal
    keep the order of the candidate list. *)
Theorem getResults_sorted_by_comparator
    (sortFn : CandidateResult → CandidateResult → Z) e :
  consistentComparator sortFn →
  StronglySorted (mayPrecede sortFn) (getResults (Some sortFn) e).1
  ∧ ∀ r, comparingEqual sortFn r (getResults (Some sortFn) e).1
         = comparingEqual sortFn r (withVotes e <$> candidates e).
Proof.
  intros Hc. unfold getResults. cbn [fst]. split.
  - by apply (Array_sort_sorted (resultComparator (Some sortFn))).
  - intros r. by apply (Array_sort_stable (resultComparator (Some sortFn))).
Qed.

Lemma getResults_sorted_by_comparator_witness :
  StronglySorted (mayPrecede fewestVotesFirst)
    (getResults (Some fewestVotesFirst) sampleVoted).1
  ∧ ∀ r, comparingEqual fewestVotesFirst r
           (getResults (Some fewestVotesFirst) sampleVoted).1
         = comparingEqual fewestVotesFirst r
             (withVotes sampleVoted <$> candidates sampleVoted).
Proof.
  apply (getResults_sorted_by_comparator fewestVotesFirst sampleVoted).
  unfold consistentComparator, fewestVotesFirst. repeat split; intros; lia.
Defined.

(** With [fewestVotesFirst] the candidate without votes comes first. *)
Example getResults_fewestVotesFirst :
  (getResults (Some fewestVotesFirst) sampleVoted).1
  = [mkResult "C2" "Sita" "Lok" 0; mkResult "C1" "Ram" "Janata" 1].
Proof. by vm_compute. Qed.

(** X9.  Whatever comparator is given, consistent or not, [getResults]
    returns every candidate of the list exactly once, each with the number
    of recorded ballots naming its id: the comparator decides the order
    only. *)
Theorem getResults_any_comparator sortFn e :
  (getResults sortFn e).1
  ≡ₚ (λ c, mkResult (cand_id c) (cand_name c) (cand_party c)
             (ballotsFor e (cand_id c))) <$> candidates e.
Proof.
  unfold getResults. cbn [fst]. rewrite Array_sort_perm.
  assert (map (withVotes e) (candidates e)
          = (λ c, mkResult (cand_id c) (cand_name c) (cand_party c)
                    (ballotsFor e (cand_id c))) <$> candidates e) as ->; [|done].
  apply list_fmap_ext. intros _ c _.
  unfold withVotes. by rewrite countVotes_ballotsFor.
Qed.

(** X10.  Registration opens the way to one vote: in a reachable registry,
    a voter whose registration has just succeeded and who names a candidate
    of the list gets [onSuccess]. *)
Theorem registered_then_vote {R} cands e v e' candidateId
    (onSuccess : Payload → R) (onError : string → R) :
  reachable cands e →
  registerVoter (Some v) e = (true, e') →
  knownCandidate cands candidateId →
  ∃ i, voter_id v = Some i
    ∧ (castVote i candidateId onSuccess onError e').1
      = onSuccess (mkPayload i candidateId).
Proof.
  intros He Hreg Hk.
  pose proof (reachable_ballotsWellFormed _ _ He) as Hinv.
  pose proof (reachable_candidates _ _ He) as Hc.
  unfold registerVoter in Hreg. destruct (voter_id v) as [i|] eqn:Hi; [|done].
  exists i. split; [done|].
  destruct (negb (truthy (Some i))); [done|].
  unfold Map_has in Hreg. case_bool_decide as Hnew; [done|].
  destruct (voter_age v <? 18)%Z; [done|].
  injection Hreg as <-. rewrite castVote_fresh; [done| | |]; cbn.
  - by rewrite Hc.
  - unfold Map_set. rewrite lookup_insert_eq. by eexists.
  - destruct (candidatedVoted e !! i) as [b|] eqn:Hb; [|done].
    by destruct (Hinv _ _ Hb) as (_ & _ & ? & _).
Qed.

Lemma registered_then_vote_witness :
  ∃ i, voter_id mohan = Some i
    ∧ (castVote i "C2" CalledSuccess CalledError sampleRegistered).1
      = CalledSuccess (mkPayload i "C2").
Proof.
  apply (registered_then_vote sampleCandidates (createElection sampleCandidates)
           mohan sampleRegistered "C2" CalledSuccess CalledError).
  - apply reachable_init.
  - reflexivity.
  - exact sample_known_C2.
Defined.

(** ** tallyPure *)

Lemma tallyPure_insert currentTally candidateId :
  tallyPure currentTally candidateId
  = <[candidateId := (default 0 (currentTally !! candidateId) + 1)%Z]> currentTally.
Proof.
  unfold tallyPure, Object_hasOwn.
  destruct (currentTally !! candidateId) as [n|] eqn:Hn.
  - by rewrite bool_decide_eq_true_2 by eauto.
  - by rewrite bool_decide_eq_false_2 by (by intros [? ?]).
Qed.

Lemma tallyPure_lookup currentTally candidateId :
  tallyPure currentTally candidateId !! candidateId
  = Some (default 0 (currentTally !! candidateId) + 1)%Z.
Proof. by rewrite tallyPure_insert, lookup_insert_eq. Qed.

Lemma tallyPure_lookup_ne currentTally candidateId other :
  other ≠ candidateId →
  tallyPure currentTally candidateId !! other = currentTally !! other.
Proof. intros H. by rewrite tallyPure_insert, lookup_insert_ne. Qed.

(** X11.  Tallying two votes gives the same tally in either order. *)
Theorem tallyPure_comm currentTally a b :
  tallyPure (tallyPure currentTally a) b = tallyPure (tallyPure currentTally b) a.
Proof.
  apply map_eq. intros k.
  destruct (decide (a = b)) as [->|Hab]; [done|].
  rewrite !tallyPure_insert, !lookup_insert.
  repeat case_decide; simplify_eq; done.
Qed.

Lemma occurrences_cons candidateId i ids :
  occurrences candidateId (i :: ids)
  = ((if decide (i = candidateId) then 1 else 0) + occurrences candidateId ids)%nat.
Proof. unfold occurrences. rewrite filter_cons. by case_decide. Qed.

(** The count read after tallying a list of ids. *)
Lemma tallyPure_fold_count (currentTally : gmap string Z) (ids : list string)
    candidateId :
  default 0%Z (foldl tallyPure currentTally ids !! candidateId)
  = (default 0 (currentTally !! candidateId)
     + Z.of_nat (occurrences candidateId ids))%Z.
Proof.
  revert currentTally. induction ids as [|i ids IH]; intros m.
  - unfold occurrences. simpl. lia.
  - cbn [foldl]. rewrite IH, occurrences_cons.
    destruct (decide (i = candidateId)) as [->|Hne].
    + rewrite tallyPure_lookup. simpl. lia.
    + rewrite tallyPure_lookup_ne by done. simpl. lia.
Qed.


Lemma occurrences_ballots candidateId (l : list Ballot) :
  occurrences candidateId (ballot_candidateId <$> l)
  = length (filter (λ b, ballot_candidateId b = candidateId) l).
Proof.
  unfold occurrences. induction l as [|b l IH]; [done|].
  rewrite fmap_cons, !filter_cons.
  destruct (decide (ballot_candidateId b = candidateId)); simpl; by rewrite IH.
Qed.

(** X13.  Tallying the recorded ballots with [tallyPure], starting from
    the empty tally, gives for every candidate the number of votes that
    [getResults] reports for it. *)
Theorem tallyPure_agrees_with_getResults e (c : Candidate) :
  default 0%Z (foldl tallyPure ∅ (ballotIds e) !! cand_id c)
  = Z.of_nat (votes (withVotes e c)).
Proof.
  rewrite tallyPure_fold_count, lookup_empty. simpl.
  unfold countVotes, ballotIds. by rewrite occurrences_ballots.
Qed.

(** ** countVotesInRegions *)









Example countVotesInRegions_sample :
  countVotesInRegions (Some sampleRegion) = Returned 24%Z.
Proof. reflexivity. Qed.

(** X15.  A region object without a [subRegions] property makes the call
    throw when it is the argument, and counts with its own votes when it
    stands in the [subRegions] of another region. *)
Theorem countVotesInRegions_missing_subRegions name votes name' votes' :
  countVotesInRegions (Some (mkRegion name votes None)) = ThrewTypeError
  ∧ countVotesInRegions
      (Some (mkRegion name' votes' (Some [mkRegion name votes None])))
    = Returned (votes' + votes)%Z.
Proof. split; [done|]. cbn. f_equal; lia. Qed.

(** ** createVoteValidator *)



(** A voter with an empty id passes the validator and is refused by
    [registerVoter]. *)
Example validator_accepts_empty_id :
  createVoteValidator documentedRules (mkVoter (Some "") "Nobody" 40)
  = mkValidation true None
  ∧ registerVoter (Some (mkVoter (Some "") "Nobody" 40))
      (createElection sampleCandidates)
    = (false, createElection sampleCandidates).
Proof. done. Qed.

(** ** The tiffin plans *)

Lemma mealPriceByType_lookup k :
  mealPriceByType !! k
  = if decide (k = "veg") then Some 80%Z
    else if decide (k = "nonveg") then Some 120%Z
    else if decide (k = "jain") then Some 90%Z
    else None.
Proof.
  unfold mealPriceByType. rewrite !lookup_insert, lookup_singleton.
  repeat case_decide; congruence.
Qed.

(** X17.  [createTiffinPlan] returns [null] exactly when the name is
    missing, empty or blank, or when the meal type (veg when none is
    given) is not veg, nonveg or jain.  Otherwise it returns the plan for
    the name, the meal type and the days (30 when none are given) at 80,
    120 or 90 a day, with the total cost the daily rate times the days,
    whatever the number of days. *)
Theorem createTiffinPlan_spec trim arg :
  let mealType := default "veg" (arg ≫= req_mealType) in
  let days := default 30%Z (arg ≫= req_days) in
  match createTiffinPlan trim arg with
  | None =>
      arg ≫= req_name = None
      ∨ arg ≫= req_name = Some ""
      ∨ (∃ name, arg ≫= req_name = Some name ∧ trim name = "")
      ∨ mealType ∉ ["veg"; "nonveg"; "jain"]
  | Some p =>
      ∃ name rate,
        arg ≫= req_name = Some name ∧ name ≠ "" ∧ trim name ≠ ""
        ∧ (mealType, rate) ∈ [("veg", 80%Z); ("nonveg", 120%Z); ("jain", 90%Z)]
        ∧ p = mkPlan name mealType days rate (rate * days) None
  end.
Proof.
  intros mealType days. unfold createTiffinPlan.
  fold mealType. fold days. clearbody mealType days.
  destruct (arg ≫= req_name) as [name|]; [|by left].
  unfold truthy.
  destruct (String.eqb_spec name "") as [->|Hname]; cbn [negb orb].
  { right. by left. }
  destruct (String.eqb_spec (trim name) "") as [Htrim|Htrim]; cbn [negb orb].
  { right. right. left. eauto. }
  unfold Object_hasOwn. rewrite mealPriceByType_lookup.
  destruct (decide (mealType = "veg")) as [->|Hveg].
  { exists name, 80%Z. repeat split; try done. set_solver. }
  destruct (decide (mealType = "nonveg")) as [->|Hnonveg].
  { exists name, 120%Z. repeat split; try done. set_solver. }
  destruct (decide (mealType = "jain")) as [->|Hjain].
  { exists name, 90%Z. repeat split; try done. set_solver. }
  rewrite bool_decide_eq_false_2 by (by intros [? ?]). cbn [negb].
  right. right. right. rewrite !not_elem_of_cons.
  repeat split; try done. apply not_elem_of_nil.
Qed.

Example createTiffinPlan_defaults :
  createTiffinPlan trimAscii (Some (mkRequest (Some "Rahul") None None))
  = Some rahulPlan.
Proof. by vm_compute. Qed.

Example createTiffinPlan_blank_name :
  createTiffinPlan trimAscii (Some (mkRequest (Some "   ") (Some "jain") None))
  = None.
Proof. by vm_compute. Qed.






(** ** combinePlans *)





(** Three customers, two of them on the veg plan. *)
Example combinePlans_sample :
  combinePlans [Some rahulPlan; None; Some priyaPlan; Some rahulPlan]
  = Some (mkSummary 3 6000
            {[ "veg" := Count 2; "nonveg" := Count 1 ]} true).
Proof. by vm_compute. Qed.

(** A meal type named like an inherited property is not counted. *)
Example combinePlans_inherited_key :
  mealBreakdown <$> combinePlans [Some (mkPlan "Odd" "toString" 1 1 1 None)]
  = Some {[ "toString" := NotACount ]}.
Proof. by vm_compute. Qed.

(** ** The Holi palettes *)

Lemma ceilHalf_spec n : (n ≤ 2 * ceilHalf n ≤ n + 1)%Z.
Proof.
  unfold ceilHalf. pose proof (Z.div_mod (n + 1) 2 ltac:(lia)).
  pose proof (Z.mod_pos_bound (n + 1) 2 ltac:(lia)). lia.
Qed.

(** X21.  Mixing two colors whose channels lie between 0 and 255 gives a
    color named after both whose channels are the averages rounded up to
    the next integer, and so lie between 0 and 255 again. *)
Theorem mixColors_channels c1 c2 :
  validChannels c1 → validChannels c2 →
  ∃ m,
    mixColors (Some c1) (Some c2) = Some m
    ∧ color_name m = color_name c1 +:+ "-" +:+ color_name c2
    ∧ mixedChannel (color_r c1) (color_r c2) (color_r m)
    ∧ mixedChannel (color_g c1) (color_g c2) (color_g m)
    ∧ mixedChannel (color_b c1) (color_b c2) (color_b m)
    ∧ validChannels m.
Proof.
  intros (Hr1 & Hg1 & Hb1) (Hr2 & Hg2 & Hb2). eexists. split; [reflexivity|].
  cbn [color_name color_r color_g color_b]. unfold mixedChannel, validChannels.
  cbn [color_r color_g color_b].
  pose proof (ceilHalf_spec (color_r c1 + color_r c2)).
  pose proof (ceilHalf_spec (color_g c1 + color_g c2)).
  pose proof (ceilHalf_spec (color_b c1 + color_b c2)).
  repeat split; lia.
Qed.

Lemma mixColors_channels_witness :
  ∃ m,
    mixColors (Some red) (Some blue) = Some m
    ∧ color_name m = color_name red +:+ "-" +:+ color_name blue
    ∧ mixedChannel (color_r red) (color_r blue) (color_r m)
    ∧ mixedChannel (color_g red) (color_g blue) (color_g m)
    ∧ mixedChannel (color_b red) (color_b blue) (color_b m)
    ∧ validChannels m.
Proof.
  apply (mixColors_channels red blue); unfold validChannels; simpl; lia.
Defined.

Example mixColors_red_blue :
  mixColors (Some red) (Some blue) = Some (mkColor "red-blue" 128 0 128).
Proof. reflexivity. Qed.

Lemma isAlreadyAdded_spec (newPalette : list Color) (palette : Color) :
  existsb (λ pal, String.eqb (color_name pal) (color_name palette)) newPalette
  = bool_decide (color_name palette ∈ color_name <$> newPalette).
Proof.
  induction newPalette as [|c l IH]; [done|].
  cbn [existsb]. rewrite fmap_cons, IH.
  destruct (String.eqb_spec (color_name c) (color_name palette)) as [Heq|Hne].
  - symmetry. apply bool_decide_eq_true_2. rewrite Heq. left.
  - cbn [orb]. apply bool_decide_ext. rewrite elem_of_cons.
    split; [by right|]. intros [Heq|?]; [by symmetry in Heq|done].
Qed.

Lemma mergePalettes_step_spec newPalette palette :
  mergePalettes_step newPalette palette
  = if decide (color_name palette ∈ color_name <$> newPalette)
    then newPalette else (newPalette ++ [palette])%list.
Proof.
  unfold mergePalettes_step. rewrite isAlreadyAdded_spec.
  case_decide.
  - by rewrite bool_decide_eq_true_2.
  - by rewrite bool_decide_eq_false_2.
Qed.

(** What the loop of [mergePalettes] does to an accumulator with distinct
    names. *)
Lemma mergePalettes_fold (palette2 acc : list Color) :
  NoDup (color_name <$> acc) →
  NoDup (color_name <$> foldl mergePalettes_step acc palette2)
  ∧ (∃ added, foldl mergePalettes_step acc palette2 = (acc ++ added)%list
              ∧ ∀ c, c ∈ added → c ∈ palette2)
  ∧ (∀ c, c ∈ palette2 →
       color_name c ∈ color_name <$> foldl mergePalettes_step acc palette2).
Proof.
  revert acc. induction palette2 as [|c l IH]; intros acc Hnd.
  { cbn [foldl]. split; [done|]. split.
    - exists []. split; [by rewrite app_nil_r|]. intros c Hc. by apply elem_of_nil in Hc.
    - intros c Hc. by apply elem_of_nil in Hc. }
  cbn [foldl]. rewrite mergePalettes_step_spec.
  destruct (decide (color_name c ∈ color_name <$> acc)) as [Hin|Hnin].
  - destruct (IH acc Hnd) as (Hnd' & (added & Heq & Hadded) & Hnames).
    split; [done|]. split.
    + exists added. split; [done|]. intros c' Hc'. right. by apply Hadded.
    + intros c' [->|Hc']%elem_of_cons; [|by apply Hnames].
      rewrite Heq, fmap_app. apply elem_of_app. by left.
  - assert (NoDup (color_name <$> (acc ++ [c])%list)) as Hnd1.
    { rewrite fmap_app. apply NoDup_app. split; [done|]. split.
      - intros n Hn Hn'. apply list_elem_of_singleton in Hn'. by subst.
      - apply NoDup_singleton. }
    destruct (IH _ Hnd1) as (Hnd' & (added & Heq & Hadded) & Hnames).
    split; [done|]. split.
    + exists (c :: added). split; [by rewrite Heq, <- app_assoc|].
      intros c' [->|Hc']%elem_of_cons; [left|right; by apply Hadded].
    + intros c' [->|Hc']%elem_of_cons; [|by apply Hnames].
      rewrite Heq, !fmap_app. apply elem_of_app. left.
      apply elem_of_app. right. left.
Qed.

(** X22.  When the colors of the first palette have distinct names, the
    merge of two arrays has distinct names too; it begins with the first
    palette unchanged, what follows are colors of the second palette, and
    every name of the second palette occurs in it. *)
Theorem mergePalettes_distinct_names palette1 palette2 :
  NoDup (color_name <$> palette1) →
  NoDup (color_name <$> mergePalettes (Some palette1) (Some palette2))
  ∧ (∃ added,
       mergePalettes (Some palette1) (Some palette2) = (palette1 ++ added)%list
       ∧ ∀ c, c ∈ added → c ∈ palette2)
  ∧ (∀ c, c ∈ palette2 →
       color_name c
       ∈ color_name <$> mergePalettes (Some palette1) (Some palette2)).
Proof. intros Hnd. by apply mergePalettes_fold. Qed.

Lemma mergePalettes_distinct_names_witness :
  NoDup (color_name <$> mergePalettes (Some [red]) (Some [blue; darkRed; blue]))
  ∧ (∃ added,
       mergePalettes (Some [red]) (Some [blue; darkRed; blue])
       = ([red] ++ added)%list
       ∧ ∀ c, c ∈ added → c ∈ [blue; darkRed; blue])
  ∧ (∀ c, c ∈ [blue; darkRed; blue] →
       color_name c
       ∈ color_name <$> mergePalettes (Some [red]) (Some [blue; darkRed; blue])).
Proof.
  apply (mergePalettes_distinct_names [red] [blue; darkRed; blue]).
  apply (bool_decide_unpack _). by vm_compute.
Defined.

Example mergePalettes_sample :
  mergePalettes (Some [red]) (Some [blue; darkRed; blue]) = [red; blue].
Proof. reflexivity. Qed.

(** Duplicates inside the first palette are kept. *)
Example mergePalettes_keeps_duplicates_of_first :
  mergePalettes (Some [red; darkRed]) (Some [blue]) = [red; darkRed; blue].
Proof. reflexivity. Qed.



Lemma removeFromPalette_step acc c colorName :
  filter (λ c, color_name c ≠ colorName) (mergePalettes_step acc c)
  = if decide (color_name c = colorName)
    then filter (λ c, color_name c ≠ colorName) acc
    else mergePalettes_step (filter (λ c, color_name c ≠ colorName) acc) c.
Proof.
  rewrite !mergePalettes_step_spec.
  destruct (decide (color_name c = colorName)) as [Heq|Hne].
  - case_decide; [done|]. rewrite filter_app, filter_cons_False, filter_nil.
    + by rewrite app_nil_r.
    + by intros ?.
  - assert (color_name c ∈ color_name <$> acc
            ↔ color_name c
              ∈ color_name <$> filter (λ c, color_name c ≠ colorName) acc) as Hiff.
    { rewrite !list_elem_of_fmap. split.
      - intros (c' & Hn & Hc'). exists c'. split; [done|].
        apply list_elem_of_filter. split; [congruence|done].
      - intros (c' & Hn & Hc'%list_elem_of_filter). exists c'. tauto. }
    destruct (decide (color_name c ∈ color_name <$> acc)) as [Hin|Hnin].
    + by rewrite decide_True by by apply Hiff.
    + rewrite decide_False by (by rewrite <- Hiff).
      by rewrite filter_app, filter_cons_True, filter_nil.
Qed.

(** X24.  Removing a name commutes with merging: removing a color name
    from the merge of two arrays gives the merge of the two arrays with
    that name removed from each. *)
Theorem removeFromPalette_mergePalettes palette1 palette2 colorName :
  removeFromPalette (Some (mergePalettes (Some palette1) (Some palette2))) colorName
  = mergePalettes (Some (removeFromPalette (Some palette1) colorName))
                  (Some (removeFromPalette (Some palette2) colorName)).
Proof.
  cbn [removeFromPalette mergePalettes].
  revert palette1. induction palette2 as [|c l IH]; intros acc; [done|].
  cbn [foldl]. rewrite IH, removeFromPalette_step, filter_cons.
  destruct (decide (color_name c = colorName)) as [Heq|Hne].
  - by rewrite decide_False by (by intros ?).
  - by rewrite decide_True.
Qed.

(** ** applyOperations *)



